(** * Montelight: a shallow embedding of [montelight.cc]

    The ray caster of [src/montelight.cc], embedded function by function,
    and the properties of its intersection test, nearest-hit scan, camera
    rays, pixel buffer and output.

    Numeric model.
    - [double] is IEEE 754 binary64: Rocq's primitive [float], whose
      operations are the correctly rounded ones, so every definition below
      runs on concrete inputs.
    - [float] (binary32) appears in the source only as the literals
      [0.01f], [1e5f], [16.5f], [1e20f] and in the division
      [x / float(w)]; binary32 values are [spec_float]s rounded with
      [SpecFloat] at precision 24, converted exactly to binary64.
    - [unsigned int] is a [Z] reduced modulo [2^32].

    What C++ leaves open.
    - The pixel buffer is a list; an access outside it has no defined
      behaviour and is modelled by [None], as are a [double] that does
      not fit the [unsigned int] it is converted to and the overflow of
      the [int] counter of [save].
    - The two arguments of [Ray(camera.origin + d * 140, d.norm())] may
      be evaluated in either order; the order is a parameter,
      [arg_order]. *)

From Stdlib Require Import ZArith Bool Lia Floats String Ascii.
From Stdlib Require Import DecimalString DecimalN.
From stdpp Require Import base list relations.

#[local] Set Warnings "-inexact-float".
#[local] Open Scope Z_scope.

(** ** Machine numbers *)

Definition wrap32 (n : Z) : Z := n mod 2 ^ 32.

(** Binary32, through [SpecFloat] with [prec = 24] and [emax = 128]. *)
Module F32.
Definition prec : Z := 24.
Definition emax : Z := 128.

Definition t := spec_float.

(** [float(n)] for an [int] [n]. *)
Definition of_int (n : Z) : t := binary_normalize prec emax n 0 false.

(** [a / b] on two [float]s. *)
Definition div (a b : t) : t := SFdiv prec emax a b.

(** Promotion of a [float] to [double]: every binary32 value is a
    binary64 value. *)
Definition to_double (a : t) : float := SF2Prim a.
End F32.

(** [#define EPSILON 0.01f], promoted to [double] where it is compared
    with one: the binary32 value nearest to 1/100,
    [10737418 / 2^30 = 0.00999999977648258209228515625]. *)
Definition EPSILON : float := 0x1.47ae14p-7%float.

(** ** [struct Vector] *)
Module Vector.
Record t : Set := mk { x : float; y : float; z : float }.

(** [Vector(double x_=0, double y_=0, double z_=0)] with no argument. *)
Definition zero : t := mk 0 0 0.

Definition op_add (v o : t) : t :=
  mk (x v + x o) (y v + y o) (z v + z o).

Definition op_sub (v o : t) : t :=
  mk (x v - x o) (y v - y o) (z v - z o).

Definition op_mul (v : t) (o : float) : t :=
  mk (x v * o) (y v * o) (z v * o).

Definition dot (v o : t) : float :=
  x v * x o + y v * y o + z v * z o.

(** [norm] assigns to [*this]; the value assigned is this one. *)
Definition norm (v : t) : t :=
  op_mul v (1 / sqrt (x v * x v + y v * y v + z v * z v)).

Definition cross (v o : t) : t :=
  mk (y v * z o - z v * y o) (z v * x o - x v * z o) (x v * y o - y v * x o).
End Vector.

Declare Scope vec_scope.
Delimit Scope vec_scope with vec.
Bind Scope vec_scope with Vector.t.
Infix "+" := Vector.op_add : vec_scope.
Infix "-" := Vector.op_sub : vec_scope.
Infix "*" := Vector.op_mul : vec_scope.

(** ** [struct Ray] *)
Module Ray.
Record t : Set := mk { origin : Vector.t; direction : Vector.t }.
End Ray.

(** ** [struct Shape] and [struct Sphere] *)
Module Shape.
Record t : Set := mk { color : Vector.t }.

(** [virtual double intersects(const Ray &r) const { return 0; }] *)
Definition intersects (s : t) (r : Ray.t) : float := 0%float.
End Shape.

Module Sphere.
(** [Sphere] derives from [Shape] and declares a [color] of its own,
    which hides [Shape::color] inside [Sphere]. *)
Record t : Set := mk {
  base : Shape.t;
  center : Vector.t;
  color : Vector.t;
  radius : float
}.

(** The constructor: [Shape(color_), center(center_), radius(radius_)];
    [Sphere::color] is not in the initialiser list and is
    default-constructed. *)
Definition make (center_ : Vector.t) (radius_ : float) (color_ : Vector.t) : t :=
  {| base := Shape.mk color_;
     center := center_;
     color := Vector.zero;
     radius := radius_ |}.

Definition intersects (s : t) (r : Ray.t) : float :=
  let offset := (Ray.origin r - center s)%vec in
  let a := Vector.dot (Ray.direction r) (Ray.direction r) in
  let b := (2 * Vector.dot offset (Ray.direction r))%float in
  let c := (Vector.dot offset offset - radius s * radius s)%float in
  let disc := (b * b - 4 * a * c)%float in
  if (disc <? 0)%float then 0%float
  else
    let disc := sqrt disc in
    let t := (- b - disc)%float in
    if (EPSILON <? t)%float then t
    else
      let t := (- b + disc)%float in
      if (EPSILON <? t)%float then t
      else 0%float.
End Sphere.

(** What a [Shape *] of the scene points to: a plain [Shape] or a
    [Sphere]. *)
Inductive object : Set :=
  | AShape (s : Shape.t)
  | ASphere (s : Sphere.t).

(** [obj->intersects(ray)]: virtual dispatch. *)
Definition intersects (obj : object) (r : Ray.t) : float :=
  match obj with
  | AShape s => Shape.intersects s r
  | ASphere s => Sphere.intersects s r
  end.

(** [obj->color] through a [Shape *]: data members are not virtual, so
    this is [Shape::color]. *)
Definition color (obj : object) : Vector.t :=
  match obj with
  | AShape s => Shape.color s
  | ASphere s => Shape.color (Sphere.base s)
  end.

(** ** The body of the pixel loop in [main] *)

(** [int] to [double], as in [w * 0.5135] or [d * 140]. *)
Definition double_of_int (n : Z) : float :=
  SF2Prim (binary_normalize FloatOps.prec FloatOps.emax n 0 false).

(** [double closest = 1e20f]: the binary32 value nearest to [10^20],
    [100000002004087734272]. *)
Definition closest_init : float := 0x1.5af1d8p+66%float.

(** One turn of [for (auto obj : scene)], on the locals [color] and
    [closest]. *)
Definition nearest_step (ray : Ray.t) (st : Vector.t * float) (obj : object)
  : Vector.t * float :=
  let hit := intersects obj ray in
  if ((0 <? hit)%float && (hit <? snd st)%float)%bool
  then (color obj, hit)
  else st.

(** The whole scan, from [Vector color; double closest = 1e20f;]. *)
Definition nearest_scan (scene : list object) (ray : Ray.t) : Vector.t * float :=
  fold_left (nearest_step ray) scene (Vector.zero, closest_init).

Definition nearest_hit (scene : list object) (ray : Ray.t) : Vector.t :=
  fst (nearest_scan scene ray).

(** [Vector d = (cx * ((x / float(w)) - 0.5)) + (cy * ((y / float(h)) - 0.5))
    + camera.direction;] The quotients are binary32 divisions, promoted
    to [double] by the subtraction of [0.5]. *)
Definition pixel_d (camera : Ray.t) (cx cy : Vector.t) (w h x y : Z) : Vector.t :=
  (cx * (F32.to_double (F32.div (F32.of_int x) (F32.of_int w)) - 0.5)%float
   + cy * (F32.to_double (F32.div (F32.of_int y) (F32.of_int h)) - 0.5)%float
   + Ray.direction camera)%vec.

(** [Ray ray = Ray(camera.origin + d * 140, d.norm());]

    [d.norm()] assigns the normalised vector to [d] itself, and the first
    argument reads [d]. Both arguments are function calls on [d], so they
    do not interleave, but C++ leaves open which of the two is evaluated
    first. The local [d] is therefore threaded as state through the two
    argument computations, in either order. *)
Inductive arg_order : Set := LeftToRight | RightToLeft.

(** Computations on the local variable [d]. *)
Definition on_d (A : Type) : Type := Vector.t -> A * Vector.t.

Definition ret_d {A : Type} (a : A) : on_d A := fun d => (a, d).

Definition bind_d {A B : Type} (m : on_d A) (k : A -> on_d B) : on_d B :=
  fun d => let '(a, d') := m d in k a d'.

Notation "'do' v <- m ; k" := (bind_d m (fun v => k))
  (at level 10, v name, m at level 100, k at level 200).

(** First argument, [camera.origin + d * 140]: reads [d]. *)
Definition arg_origin (camera : Ray.t) : on_d Vector.t :=
  fun d => ((Ray.origin camera + d * double_of_int 140)%vec, d).

(** Second argument, [d.norm()]: writes [d] and yields it. *)
Definition arg_direction : on_d Vector.t :=
  fun d => let d' := Vector.norm d in (d', d').

Definition make_ray (ord : arg_order) (camera : Ray.t) : on_d Ray.t :=
  match ord with
  | LeftToRight =>
      do o <- arg_origin camera; do dir <- arg_direction; ret_d (Ray.mk o dir)
  | RightToLeft =>
      do dir <- arg_direction; do o <- arg_origin camera; ret_d (Ray.mk o dir)
  end.

Definition pixel_ray (ord : arg_order) (camera : Ray.t) (cx cy : Vector.t)
    (w h x y : Z) : Ray.t :=
  fst (make_ray ord camera (pixel_d camera cx cy w h x y)).

(** The colour handed to [img.setPixel(x, y, color)]. *)
Definition pixel_color (ord : arg_order) (scene : list object) (camera : Ray.t)
    (cx cy : Vector.t) (w h x y : Z) : Vector.t :=
  nearest_hit scene (pixel_ray ord camera cx cy w h x y).

(** ** The configuration built in [main] *)
Module main.
Definition w : Z := 256.
Definition h : Z := 256.

Definition scene : list object :=
  [ ASphere (Sphere.make (Vector.mk (1e5 + 1) 40.8 81.6) 1e5 (Vector.mk 0.75 0.25 0.25));
    ASphere (Sphere.make (Vector.mk (- 1e5 + 99) 40.8 81.6) 1e5 (Vector.mk 0.25 0.25 0.75));
    ASphere (Sphere.make (Vector.mk 50 40.8 1e5) 1e5 (Vector.mk 0.75 0.75 0.75));
    ASphere (Sphere.make (Vector.mk 50 40.8 (- 1e5 + 170)) 1e5 Vector.zero);
    ASphere (Sphere.make (Vector.mk 50 1e5 81.6) 1e5 (Vector.mk 0.75 0.75 0.75));
    ASphere (Sphere.make (Vector.mk 50 (- 1e5 + 81.6) 81.6) 1e5 (Vector.mk 0.75 0.75 0.75));
    ASphere (Sphere.make (Vector.mk 27 16.5 47) 16.5 (Vector.mk 1 1 1 * 0.9));
    ASphere (Sphere.make (Vector.mk 73 16.5 78) 16.5 (Vector.mk 1 1 1 * 0.9));
    ASphere (Sphere.make (Vector.mk 50 (681.6 - 0.27) 81.6) 600 (Vector.mk 1 1 1)) ]%float.

Definition camera : Ray.t :=
  Ray.mk (Vector.mk 50 52 295.6) (Vector.norm (Vector.mk 0 (- 0.042612) (- 1))).

Definition cx : Vector.t :=
  Vector.mk (double_of_int w * 0.5135 / double_of_int h) 0 0.

Definition cy : Vector.t :=
  (Vector.norm (Vector.cross cx (Ray.direction camera)) * 0.5135)%vec.
End main.

(** ** [struct Image] *)

(** [unsigned int r = pixels[i].x * 255]: conversion of a [double] to
    [unsigned int] drops the fractional part; it is defined only when the
    truncated value fits [unsigned int]. *)
Definition to_unsigned (f : float) : option Z :=
  match Prim2SF f with
  | S754_zero _ => Some 0
  | S754_finite s m e =>
      let magnitude := Z.shiftl (Z.pos m) e in
      if s then (if magnitude =? 0 then Some 0 else None)
      else if magnitude <? 2 ^ 32 then Some magnitude else None
  | S754_infinity _ | S754_nan => None
  end.

(** [f << n] for an [unsigned int]: its decimal digits. *)
Definition decimal (n : Z) : string :=
  NilEmpty.string_of_uint (N.to_uint (Z.to_N n)).

(** The largest [int]. *)
Definition INT_MAX : Z := 2 ^ 31 - 1.

(** [std::endl] puts a line feed. *)
Definition endl : string := String (ascii_of_nat 10) EmptyString.

Module Image.
(** [width] and [height] are [unsigned int]s, [pixels] the buffer
    allocated by the constructor. *)
Record t : Type := mk { width : Z; height : Z; pixels : list Vector.t }.

(** [pixels = new Vector[width * height]]: the product is an
    [unsigned int] one and every element is default-constructed. *)
Definition make (w h : Z) : t :=
  mk w h (replicate (Z.to_nat (wrap32 (w * h))) Vector.zero).

(** [(height - y) * width + x], in [unsigned int] arithmetic. *)
Definition index (img : t) (x y : Z) : Z :=
  wrap32 (wrap32 (wrap32 (height img - y) * width img) + x).

(** [pixels[(height - y) * width + x] = v]. [None]: the element is not
    in the buffer. *)
Definition setPixel (img : t) (x y : Z) (v : Vector.t) : option t :=
  let i := Z.to_nat (index img x y) in
  if decide (i < length (pixels img))%nat
  then Some (mk (width img) (height img) (<[i := v]> (pixels img)))
  else None.

Definition header (img : t) : string :=
  ("P3 " ++ decimal (width img) ++ " " ++ decimal (height img) ++ " "
     ++ decimal 255 ++ endl)%string.

(** [unsigned int r = pixels[i].x * 255, g = pixels[i].y * 255,
    b = pixels[i].z * 255;] *)
Definition rgb (p : Vector.t) : option (Z * Z * Z) :=
  r ← to_unsigned (Vector.x p * double_of_int 255);
  g ← to_unsigned (Vector.y p * double_of_int 255);
  b ← to_unsigned (Vector.z p * double_of_int 255);
  Some (r, g, b).

(** [f << r << " " << g << " " << b << std::endl;] *)
Definition line (c : Z * Z * Z) : string :=
  (decimal c.1.1 ++ " " ++ decimal c.1.2 ++ " " ++ decimal c.2 ++ endl)%string.

(** [for (int i=0; i < width * height; i++)], reading [pixels[i]]. The
    bound is the [unsigned int] product; the counter is an [int], which
    takes the values 0 to the bound: [i++] overflows, with no defined
    behaviour, when the bound is above [INT_MAX]. *)
Definition lines (img : t) : option (list string) :=
  let n := wrap32 (width img * height img) in
  if n <=? INT_MAX
  then mapM (fun i => p ← pixels img !! i; c ← rgb p; Some (line c))
            (seq 0 (Z.to_nat n))
  else None.

(** [save]: the characters sent to the stream; the file itself is
    outside the model. *)
Definition save (img : t) : option string :=
  ls ← lines img;
  Some (header img ++ String.concat "" ls)%string.
End Image.

(** ** The loops of [main] *)

(** What is fixed before the loops start. *)
Record setup : Type := mk_setup {
  order : arg_order;
  scene : list object;
  camera : Ray.t;
  cx : Vector.t;
  cy : Vector.t;
  w : Z;
  h : Z
}.

Definition setup_color (c : setup) (x y : Z) : Vector.t :=
  pixel_color (order c) (scene c) (camera c) (cx c) (cy c) (w c) (h c) x y.

(** One call [img.setPixel(x, y, color)] with its three arguments. *)
Definition call : Type := Z * Z * Vector.t.

(** The calls of [for (y = 0; y < h; ++y) for (x = 0; x < w; ++x)], in
    the order they are made. The loop on [samples] around them runs its
    body once. *)
Definition calls (c : setup) : list call :=
  y ← seqZ 0 (h c); x ← seqZ 0 (w c); [(x, y, setup_color c x y)].

(** [main] up to [img.save]: the image after all the calls, [None] as soon
    as one of them leaves the buffer. *)
Definition render (c : setup) : option Image.t :=
  foldl (fun img k => i ← img; Image.setPixel i (wrap32 k.1.1) (wrap32 k.1.2) k.2)
        (Some (Image.make (wrap32 (w c)) (wrap32 (h c)))) (calls c).

(** The same loops as a transition system: a state holds the counters [y]
    and [x] and the calls made so far. *)
Record loop : Type := mk_loop { loop_y : Z; loop_x : Z; made : list call }.

Inductive step (c : setup) : loop -> loop -> Prop :=
  | step_pixel y x tr :
      y < h c -> x < w c ->
      step c (mk_loop y x tr) (mk_loop y (x + 1) (tr ++ [(x, y, setup_color c x y)]))
  | step_row y x tr :
      y < h c -> w c <= x ->
      step c (mk_loop y x tr) (mk_loop (y + 1) 0 tr).

Definition finished (c : setup) (s : loop) : Prop := h c <= loop_y s.

(** A complete run of the loops and the calls it made. *)
Definition run (c : setup) (tr : list call) : Prop :=
  exists s, rtc (step c) (mk_loop 0 0 []) s /\ finished c s /\ made s = tr.

Definition main_setup (ord : arg_order) : setup :=
  mk_setup ord main.scene main.camera main.cx main.cy main.w main.h.

(** ** Reading the output back *)

(** Modelled from the spec: a reader of the plain-text pixel format of the
    output file (a header line with the format tag, width, height and
    maximum value, then three integers per pixel). The repository only
    writes the format; the reader serves to state the round trip. *)
Module Reader.
Definition is_space (c : ascii) : bool :=
  match nat_of_ascii c with
  | 9%nat | 10%nat | 13%nat | 32%nat => true
  | _ => false
  end.

(** The words of the text; [cur] is the word being read. *)
Fixpoint words (cur : string) (s : string) : list string :=
  match s with
  | EmptyString =>
      match cur with EmptyString => [] | _ => [cur] end
  | String c s' =>
      if is_space c
      then match cur with
           | EmptyString => words EmptyString s'
           | _ => cur :: words EmptyString s'
           end
      else words (cur ++ String c EmptyString)%string s'
  end.

Definition number (s : string) : option Z :=
  match s with
  | EmptyString => None
  | _ => d ← NilEmpty.uint_of_string s; Some (Z.of_N (N.of_uint d))
  end.

Fixpoint triples (l : list Z) : option (list (Z * Z * Z)) :=
  match l with
  | [] => Some []
  | r :: g :: b :: l' => ps ← triples l'; Some ((r, g, b) :: ps)
  | _ => None
  end.

Record ppm : Type := mk_ppm {
  ppm_width : Z;
  ppm_height : Z;
  ppm_max : Z;
  ppm_pixels : list (Z * Z * Z)
}.

Definition read (s : string) : option ppm :=
  match words EmptyString s with
  | tag :: ws =>
      if String.eqb tag "P3"
      then ns ← mapM number ws;
           match ns with
           | w :: h :: m :: body => ps ← triples body; Some (mk_ppm w h m ps)
           | _ => None
           end
      else None
  | [] => None
  end.
End Reader.

(** ** Vocabulary of the properties *)

(** The quantities named in the comments of [Sphere::intersects]. *)
Definition quadratic_b (s : Sphere.t) (r : Ray.t) : float :=
  (2 * Vector.dot (Ray.origin r - Sphere.center s)%vec (Ray.direction r))%float.

Definition discriminant (s : Sphere.t) (r : Ray.t) : float :=
  let offset := (Ray.origin r - Sphere.center s)%vec in
  let a := Vector.dot (Ray.direction r) (Ray.direction r) in
  let b := quadratic_b s r in
  let c := (Vector.dot offset offset - Sphere.radius s * Sphere.radius s)%float in
  (b * b - 4 * a * c)%float.

Definition t1 (s : Sphere.t) (r : Ray.t) : float :=
  (- quadratic_b s r - sqrt (discriminant s r))%float.

Definition t2 (s : Sphere.t) (r : Ray.t) : float :=
  (- quadratic_b s r + sqrt (discriminant s r))%float.

(** Euclidean distance from the origin of a ray to the centre of a
    sphere. *)
Definition distance_to_center (s : Sphere.t) (r : Ray.t) : float :=
  let offset := (Ray.origin r - Sphere.center s)%vec in
  sqrt (Vector.dot offset offset).

(** A distance the scan of the scene accepts when nothing nearer was
    seen: strictly positive and strictly below the initial [closest]. *)
Definition accepted (t : float) : bool :=
  ((0 <? t)%float && (t <? closest_init)%float)%bool.

(** An image as the constructor leaves it and [setPixel] keeps it. *)
Definition wf_image (img : Image.t) : Prop :=
  0 <= Image.width img < 2 ^ 32 /\
  0 <= Image.height img < 2 ^ 32 /\
  length (Image.pixels img)
    = Z.to_nat (wrap32 (Image.width img * Image.height img)).

(** The calls of the inner loop for row [y], from column [x] on. *)
Definition row_from (c : setup) (y x : Z) : list call :=
  x' ← seqZ x (w c - x); [(x', y, setup_color c x' y)].

(** The loops of [main] over a 2 x 1 image. *)
Definition tiny_setup : setup :=
  mk_setup LeftToRight main.scene main.camera main.cx main.cy 2 1.

(** Strings without white space. *)
Fixpoint solid (s : string) : bool :=
  match s with
  | EmptyString => true
  | String a s' => negb (Reader.is_space a) && solid s'
  end.

(** The words and the numbers of the line written for one pixel. *)
Definition line_words (c : Z * Z * Z) : list string :=
  [decimal c.1.1; decimal c.1.2; decimal c.2].

Definition channels (c : Z * Z * Z) : list Z := [c.1.1; c.1.2; c.2].




(** A [double] that is a NaN, a zero, or has sign [s]. *)
Definition signed_or_nan (s : bool) (x : spec_float) : Prop :=
  match x with
  | S754_nan => True
  | S754_zero _ => True
  | S754_infinity s' | S754_finite s' _ _ => s' = s
  end.

(** In a scan along [ray], the shape [o] does not compete with [obj]: if
    its distance is accepted it is strictly farther than [obj], or as far
    and of the same colour. *)
Definition farther_or_same (ray : Ray.t) (obj o : object) : Prop :=
  accepted (intersects o ray) = true ->
  (intersects obj ray <? intersects o ray)%float = true \/
  (color o = color obj /\ intersects o ray = intersects obj ray).

(** States of the scan from which it can still settle on [obj]. *)
Definition open_state (ray : Ray.t) (obj : object) (st : Vector.t * float) : Prop :=
  st = (color obj, intersects obj ray) \/
  ((intersects obj ray <? snd st)%float = true /\
   (snd st = closest_init \/ (snd st <? closest_init)%float = true)).

(** * Properties *)

(** ** Order of [double]s *)

Lemma SFcompare_Lt_trans a b c :
  SFcompare a b = Some Lt -> SFcompare b c = Some Lt -> SFcompare a c = Some Lt.
Proof.
  destruct a as [sa|sa| |sa ma ea], b as [sb|sb| |sb mb eb], c as [sc|sc| |sc mc ec];
    cbn [SFcompare]; try discriminate; try reflexivity;
    try (destruct sa, sb, sc; (discriminate || reflexivity || (intros; assumption))).
  all: destruct sa, sb, sc; try discriminate; try reflexivity; try (intros; assumption).
  all: change (Pos.compare_cont Eq) with Pos.compare.
  all: destruct (Z.compare_spec ea eb), (Z.compare_spec eb ec), (Z.compare_spec ea ec);
       try discriminate; try reflexivity; try lia; subst.
  all: destruct (Pos.compare_spec ma mb), (Pos.compare_spec mb mc), (Pos.compare_spec ma mc);
       cbn; try discriminate; try reflexivity; try lia.
Qed.

Lemma SFcompare_Lt_irrefl a : SFcompare a a <> Some Lt.
Proof.
  destruct a as [s|s| |s m e]; cbn [SFcompare]; try discriminate.
  - destruct s; discriminate.
  - change (Pos.compare_cont Eq) with Pos.compare.
    rewrite Z.compare_refl, Pos.compare_refl. destruct s; discriminate.
Qed.

Lemma ltb_trans (a b c : float) :
  (a <? b)%float = true -> (b <? c)%float = true -> (a <? c)%float = true.
Proof.
  rewrite !ltb_spec. unfold SFltb.
  destruct (SFcompare (Prim2SF a) (Prim2SF b)) as [[]|] eqn:Hab; try discriminate.
  destruct (SFcompare (Prim2SF b) (Prim2SF c)) as [[]|] eqn:Hbc; try discriminate.
  intros _ _. now rewrite (SFcompare_Lt_trans _ _ _ Hab Hbc).
Qed.

Lemma ltb_irrefl (a : float) : (a <? a)%float = false.
Proof.
  rewrite ltb_spec. unfold SFltb.
  destruct (SFcompare (Prim2SF a) (Prim2SF a)) as [[]|] eqn:H; try reflexivity.
  now apply SFcompare_Lt_irrefl in H.
Qed.

Lemma ltb_asym (a b : float) :
  (a <? b)%float = true -> (b <? a)%float = false.
Proof.
  intros Hab. destruct (b <? a)%float eqn:Hba; [|reflexivity].
  pose proof (ltb_trans _ _ _ Hab Hba) as H. now rewrite ltb_irrefl in H.
Qed.

(** The two binary32 literals, recomputed by rounding at precision 24. *)
Lemma EPSILON_is_binary32_hundredth :
  F32.to_double (F32.div (F32.of_int 1) (F32.of_int 100)) = EPSILON.
Proof. reflexivity. Qed.

Lemma closest_init_is_binary32_1e20 :
  F32.to_double (F32.of_int (10 ^ 20)) = closest_init.
Proof. reflexivity. Qed.

(** ** [Sphere::intersects] *)

(** C1, at a ray aimed at the centre of a sphere from outside: the sphere
    of radius 1 centred at (10,0,0), seen from the origin along (1,0,0).
    The distance to the centre minus the radius is 9; [intersects] returns
    18, the numerator [-b - sqrt(disc)] of the root without the division
    by [2a]. *)
Lemma intersects_head_on_is_twice_the_distance :
  let s := Sphere.make (Vector.mk 10 0 0) 1 (Vector.mk 1 1 1) in
  let r := Ray.mk (Vector.mk 0 0 0) (Vector.mk 1 0 0) in
  Vector.norm (Sphere.center s - Ray.origin r)%vec = Ray.direction r /\
  (distance_to_center s r - Sphere.radius s)%float = 9%float /\
  Sphere.intersects s r = 18%float.
Proof. repeat split. Qed.

Example intersects_head_on_along_z :
  Sphere.intersects (Sphere.make (Vector.mk 0 0 (-5)) 2 (Vector.mk 1 1 1))
                    (Ray.mk (Vector.mk 0 0 0) (Vector.mk 0 0 (-1)))
  = 6%float.
Proof. reflexivity. Qed.

Lemma intersects_unfold (s : Sphere.t) (r : Ray.t) :
  Sphere.intersects s r =
    if (discriminant s r <? 0)%float then 0%float
    else if (EPSILON <? t1 s r)%float then t1 s r
    else if (EPSILON <? t2 s r)%float then t2 s r
    else 0%float.
Proof. reflexivity. Qed.

(** C3, as stated: the result would never lie in (0, 0.01]. For the
    sphere of radius 0.004999999944 centred at the origin of the ray, the
    far root is 0.009999999888: above [EPSILON], below 0.01, and
    returned. *)
Lemma intersects_between_EPSILON_and_hundredth :
  let s := Sphere.make (Vector.mk 0 0 0) 0.004999999944 (Vector.mk 1 1 1) in
  let r := Ray.mk (Vector.mk 0 0 0) (Vector.mk 1 0 0) in
  Sphere.intersects s r = 0.0099999998880000007%float /\
  (0 <? Sphere.intersects s r)%float = true /\
  (Sphere.intersects s r <=? 0.01)%float = true /\
  ~ (Sphere.intersects s r = 0%float \/ (0.01 <? Sphere.intersects s r)%float = true).
Proof.
  cbv zeta. repeat split.
  intros [H | H]; vm_compute in H; [|discriminate].
  apply (f_equal (fun f => (0 <? f)%float)) in H. vm_compute in H. discriminate.
Qed.

(** C3, amended: [intersects] returns 0 when the discriminant is
    negative; otherwise [t1] if [t1 > EPSILON], else [t2] if
    [t2 > EPSILON], else 0, where [EPSILON] is the binary32 constant
    [0.01f]. The result is 0 or strictly greater than [EPSILON], and it
    is never negative. *)
Theorem intersects_root_selection (s : Sphere.t) (r : Ray.t) :
  ((discriminant s r <? 0)%float = true -> Sphere.intersects s r = 0%float) /\
  ((discriminant s r <? 0)%float = false ->
     ((EPSILON <? t1 s r)%float = true -> Sphere.intersects s r = t1 s r) /\
     ((EPSILON <? t1 s r)%float = false -> (EPSILON <? t2 s r)%float = true ->
        Sphere.intersects s r = t2 s r) /\
     ((EPSILON <? t1 s r)%float = false -> (EPSILON <? t2 s r)%float = false ->
        Sphere.intersects s r = 0%float)) /\
  (Sphere.intersects s r = 0%float \/
   (EPSILON <? Sphere.intersects s r)%float = true) /\
  (Sphere.intersects s r <? 0)%float = false.
Proof.
  rewrite intersects_unfold.
  destruct (discriminant s r <? 0)%float eqn:Hd,
           (EPSILON <? t1 s r)%float eqn:H1,
           (EPSILON <? t2 s r)%float eqn:H2;
    repeat split; intros; try discriminate; try reflexivity; auto;
    try (now left); try (now right).
  all: apply ltb_asym; apply (ltb_trans _ EPSILON); [reflexivity | assumption].
Qed.

(** ** [Image::setPixel] *)

Lemma make_wf (w h : Z) :
  0 <= w < 2 ^ 32 -> 0 <= h < 2 ^ 32 -> wf_image (Image.make w h).
Proof.
  intros Hw Hh. unfold wf_image, Image.make; cbn.
  now rewrite length_replicate.
Qed.

Lemma index_wrap (img : Image.t) (x y : Z) :
  Image.index img x y
    = wrap32 ((Image.height img - y) * Image.width img + x).
Proof.
  unfold Image.index, wrap32.
  rewrite Z.add_mod_idemp_l by lia.
  rewrite <- (Z.add_mod_idemp_l (_ * _)) by lia.
  rewrite Z.mul_mod_idemp_l by lia.
  now rewrite Z.add_mod_idemp_l by lia.
Qed.

Lemma index_exact (img : Image.t) (x y : Z) :
  0 <= (Image.height img - y) * Image.width img + x < 2 ^ 32 ->
  Image.index img x y = (Image.height img - y) * Image.width img + x.
Proof.
  intros H. rewrite index_wrap. unfold wrap32. now apply Z.mod_small.
Qed.

Lemma setPixel_wf (img img' : Image.t) (x y : Z) (v : Vector.t) :
  wf_image img -> Image.setPixel img x y v = Some img' -> wf_image img'.
Proof.
  unfold Image.setPixel, wf_image. intros (Hw & Hh & Hl) Hs.
  destruct (decide _); [|discriminate].
  injection Hs as <-. cbn. now rewrite length_insert.
Qed.

(** Row [y = 0], when the index does not wrap around: the element lies
    past the end of the buffer. *)
Lemma setPixel_row_zero_outside (w h x : Z) (v : Vector.t) :
  0 < w -> 0 < h -> w * h + x < 2 ^ 32 -> 0 <= x < w ->
  Image.index (Image.make w h) x 0 = w * h + x /\
  (length (Image.pixels (Image.make w h)) <= Z.to_nat (w * h + x))%nat /\
  Image.setPixel (Image.make w h) x 0 v = None.
Proof.
  intros Hw Hh Hwh Hx.
  assert (Hlen : length (Image.pixels (Image.make w h)) = Z.to_nat (w * h)).
  { cbn. rewrite length_replicate. unfold wrap32. rewrite Z.mod_small; lia. }
  assert (Hidx : Image.index (Image.make w h) x 0 = wrap32 (w * h + x)).
  { rewrite index_wrap. cbn. f_equal. lia. }
  assert (Hge : w * h <= wrap32 (w * h + x)).
  { unfold wrap32. rewrite Z.mod_small; lia. }
  assert (Hno : Image.setPixel (Image.make w h) x 0 v = None).
  { unfold Image.setPixel. rewrite Hidx, Hlen.
    destruct (decide _) as [Hlt | _]; [lia | reflexivity]. }
  repeat split; [| | exact Hno].
  - rewrite Hidx. unfold wrap32. apply Z.mod_small. nia.
  - rewrite Hlen. lia.
Qed.

(** C2, at pixel (0, 0) of the 256 x 256 image of [main], the first one
    the loops write: the storage index is 65536, the buffer has the
    elements 0 to 65535, and the write falls outside it. *)
Lemma setPixel_first_pixel_out_of_bounds :
  let img := Image.make 256 256 in
  0 <= 0 < Image.width img /\ 0 <= 0 < Image.height img /\
  Image.index img 0 0 = 65536 /\
  Z.of_nat (length (Image.pixels img)) = 65536 /\
  forall v, Image.setPixel img 0 0 v = None.
Proof.
  cbv zeta. split; [cbn; lia|]. split; [cbn; lia|]. split; [reflexivity|].
  split.
  - cbn. now rewrite length_replicate.
  - intros v. apply (setPixel_row_zero_outside 256 256 0 v); lia.
Qed.

(** The loops of [main] leave the buffer at their first call whatever the
    scene: the image is never completed inside the model. *)
Lemma foldl_setPixel_None (l : list call) :
  foldl (fun img k => i ← img;
                      Image.setPixel i (wrap32 k.1.1) (wrap32 k.1.2) k.2)
        None l = None.
Proof. induction l as [|k l IH]; [reflexivity | exact IH]. Qed.

Lemma calls_head (c : setup) :
  0 < w c -> 0 < h c ->
  exists rest, calls c = (0, 0, setup_color c 0 0) :: rest.
Proof.
  intros Hw Hh. unfold calls.
  rewrite (seqZ_cons 0 (h c)) by lia.
  rewrite bind_cons.
  rewrite (seqZ_cons 0 (w c)) by lia.
  rewrite bind_cons. cbn [app].
  eexists. reflexivity.
Qed.

Lemma render_leaves_buffer (c : setup) :
  0 < w c -> 0 < h c -> w c * h c < 2 ^ 32 ->
  render c = None.
Proof.
  intros Hw Hh Hwh. unfold render.
  destruct (calls_head c Hw Hh) as (rest & ->).
  cbn [foldl fst snd mbind option_bind].
  assert (Ew : wrap32 (w c) = w c) by (apply Z.mod_small; nia).
  assert (Eh : wrap32 (h c) = h c) by (apply Z.mod_small; nia).
  rewrite Ew, Eh. change (wrap32 0) with 0.
  destruct (setPixel_row_zero_outside (w c) (h c) 0 (setup_color c 0 0))
    as (_ & _ & ->); try lia.
  apply foldl_setPixel_None.
Qed.


(** C6, at pixel (0, 0) of a 2 x 2 image: the index
    [(height - y) * width + x] is 4, the buffer has no element 4, and the
    write stores the colour in no element of the buffer. The flip is off
    by one, as in C2. *)
Lemma setPixel_origin_has_no_element :
  let img := Image.make 2 2 in
  let v := Vector.mk 1 0 0 in
  Image.index img 0 0 = (Image.height img - 0) * Image.width img + 0 /\
  Image.pixels img !! Z.to_nat (Image.index img 0 0) = None /\
  Image.setPixel img 0 0 v = None.
Proof. repeat split. Qed.

(** Where the index is inside the buffer, for [x < width] and
    [1 <= y <= height] in an image whose size fits [unsigned int],
    [setPixel] stores the colour at storage index
    [(height - y) * width + x]: that element of the buffer becomes the
    colour, every other element and the dimensions stay as they were. *)
Theorem setPixel_changes_exactly_index (img : Image.t) (x y : Z) (v : Vector.t) :
  wf_image img ->
  Image.width img * Image.height img < 2 ^ 32 ->
  0 <= x < Image.width img ->
  1 <= y <= Image.height img ->
  let i := Z.to_nat ((Image.height img - y) * Image.width img + x) in
  exists img',
    Image.setPixel img x y v = Some img' /\
    Image.index img x y = (Image.height img - y) * Image.width img + x /\
    Image.width img' = Image.width img /\
    Image.height img' = Image.height img /\
    length (Image.pixels img') = length (Image.pixels img) /\
    Image.pixels img' !! i = Some v /\
    forall j : nat, j <> i -> Image.pixels img' !! j = Image.pixels img !! j.
Proof.
  intros (Hw & Hh & Hl) Hwh Hx Hy i.
  assert (Hi : 0 <= (Image.height img - y) * Image.width img + x
               < Image.width img * Image.height img) by nia.
  assert (Hidx : Image.index img x y
                 = (Image.height img - y) * Image.width img + x)
    by (apply index_exact; lia).
  assert (Hlt : (i < length (Image.pixels img))%nat).
  { rewrite Hl. unfold wrap32. rewrite Z.mod_small by lia. subst i. lia. }
  exists (Image.mk (Image.width img) (Image.height img)
                   (<[i := v]> (Image.pixels img))).
  repeat split; cbn.
  - unfold Image.setPixel. rewrite Hidx. fold i.
    destruct (decide _) as [_ | Hn]; [reflexivity | contradiction].
  - exact Hidx.
  - apply length_insert.
  - now apply list_lookup_insert_eq.
  - intros j Hj. now apply list_lookup_insert_ne.
Qed.

Lemma setPixel_changes_exactly_index_witness :
  exists img',
    Image.setPixel (Image.make 2 2) 0 1 (Vector.mk 1 0 0) = Some img' /\
    Image.pixels img' !! 2%nat = Some (Vector.mk 1 0 0).
Proof.
  destruct (setPixel_changes_exactly_index (Image.make 2 2) 0 1 (Vector.mk 1 0 0))
    as (img' & Hs & _ & _ & _ & _ & Hv & _).
  - apply make_wf; lia.
  - cbn; lia.
  - cbn; lia.
  - cbn; lia.
  - exists img'. split; [exact Hs | exact Hv].
Defined.

(** ** Nearest-hit resolution *)

Section NearestHit.
Variable ray : Ray.t.

#[local] Abbreviation hit obj := (intersects obj ray).

Lemma nearest_step_keep (st : Vector.t * float) (obj : object) :
  ((0 <? hit obj)%float && (hit obj <? snd st)%float)%bool = false ->
  nearest_step ray st obj = st.
Proof. unfold nearest_step. now intros ->. Qed.

Lemma nearest_step_take (st : Vector.t * float) (obj : object) :
  (0 <? hit obj)%float = true -> (hit obj <? snd st)%float = true ->
  nearest_step ray st obj = (color obj, hit obj).
Proof. unfold nearest_step. now intros -> ->. Qed.

Lemma nearest_step_miss (st : Vector.t * float) (obj : object) :
  hit obj = 0%float -> nearest_step ray st obj = st.
Proof.
  intros H. apply nearest_step_keep. rewrite H. reflexivity.
Qed.

Lemma scan_all_miss (l : list object) (st : Vector.t * float) :
  Forall (fun obj => hit obj = 0%float) l ->
  fold_left (nearest_step ray) l st = st.
Proof.
  induction 1 as [|obj l Hobj _ IH]; cbn; [reflexivity|].
  now rewrite nearest_step_miss.
Qed.

(** Where a scan leaves [closest]: at its starting value, with the
    colour untouched, or at the distance of one of the shapes scanned,
    strictly positive and strictly below the starting value. *)
Lemma scan_closest (l : list object) (st : Vector.t * float) :
  fold_left (nearest_step ray) l st = st \/
  exists (j : nat) (obj : object),
    l !! j = Some obj /\
    snd (fold_left (nearest_step ray) l st) = hit obj /\
    (0 <? hit obj)%float = true /\ (hit obj <? snd st)%float = true.
Proof.
  revert st. induction l as [|o l IH]; intros st; cbn [fold_left].
  - now left.
  - destruct ((0 <? hit o)%float && (hit o <? snd st)%float)%bool eqn:E.
    + apply andb_true_iff in E as [Hpos Hlt].
      rewrite (nearest_step_take st o Hpos Hlt).
      right. destruct (IH (color o, hit o)) as [-> | (j & obj & Hj & Hs & Hp & Hl)].
      * exists 0%nat, o. repeat split; assumption.
      * exists (S j), obj. repeat split; try assumption.
        apply (ltb_trans _ (hit o)); assumption.
    + rewrite (nearest_step_keep st o E).
      destruct (IH st) as [-> | (j & obj & Hj & Hs & Hp & Hl)].
      * now left.
      * right. exists (S j), obj. repeat split; assumption.
Qed.

Lemma scan_none_nearer (l : list object) (st : Vector.t * float) :
  (forall obj, obj ∈ l -> (0 <? hit obj)%float = true ->
               (hit obj <? snd st)%float = false) ->
  fold_left (nearest_step ray) l st = st.
Proof.
  revert st. induction l as [|o l IH]; intros st Hl; cbn [fold_left].
  - reflexivity.
  - rewrite nearest_step_keep.
    + apply IH. intros obj Hin. apply Hl. now right.
    + destruct (0 <? hit o)%float eqn:Hpos; [|reflexivity].
      cbn. apply Hl; [now left | assumption].
Qed.

(** The shape the scan settles on: accepted, no accepted shape strictly
    nearer, and every accepted shape before it strictly farther. *)
Lemma scan_smallest (scene : list object) (i : nat) (obj : object) :
  scene !! i = Some obj ->
  accepted (hit obj) = true ->
  (forall (j : nat) (o : object),
      scene !! j = Some o -> accepted (hit o) = true ->
      (hit o <? hit obj)%float = false) ->
  (forall (j : nat) (o : object),
      (j < i)%nat -> scene !! j = Some o -> accepted (hit o) = true ->
      (hit obj <? hit o)%float = true) ->
  nearest_scan scene ray = (color obj, hit obj).
Proof.
  intros Hi Hacc Hmin Hfirst.
  apply andb_true_iff in Hacc as [Hpos Hlt].
  unfold nearest_scan.
  rewrite <- (take_drop_middle scene i obj Hi), fold_left_app.
  cbn [fold_left].
  set (st := fold_left (nearest_step ray) (take i scene) (Vector.zero, closest_init)).
  assert (Hst : (hit obj <? snd st)%float = true).
  { destruct (scan_closest (take i scene) (Vector.zero, closest_init))
      as [E | (j & o & Hj & Hs & Hp & Hl)]; fold st in E || fold st in Hs.
    - now rewrite E.
    - rewrite Hs. apply lookup_take_Some in Hj as [Hj Hji].
      cbn [snd] in Hl.
      apply (Hfirst j o Hji Hj). unfold accepted. now rewrite Hp, Hl. }
  rewrite (nearest_step_take st obj Hpos Hst).
  apply scan_none_nearer. cbn [snd]. intros o Hin Hp.
  destruct (hit o <? hit obj)%float eqn:Hlo; [|reflexivity].
  apply list_elem_of_lookup in Hin as [j Hj].
  rewrite lookup_drop in Hj.
  rewrite <- (Hmin _ o Hj); [now rewrite Hlo|].
  unfold accepted. rewrite Hp. cbn. apply (ltb_trans _ (hit obj)); assumption.
Qed.
End NearestHit.

(** C7: when no shape of the scene is hit (every [intersects] returns 0),
    the scan leaves the colour at its initial value, the zero vector
    (0,0,0), and [closest] at its initial value. *)
Theorem nearest_hit_background (scene : list object) (ray : Ray.t) :
  Forall (fun obj => intersects obj ray = 0%float) scene ->
  nearest_hit scene ray = Vector.mk 0 0 0 /\
  nearest_scan scene ray = (Vector.zero, closest_init).
Proof.
  intros H. unfold nearest_hit, nearest_scan.
  now rewrite (scan_all_miss ray scene _ H).
Qed.

Lemma nearest_hit_background_witness :
  nearest_hit
    [ ASphere (Sphere.make (Vector.mk 0 5 0) 1 (Vector.mk 1 0 0));
      ASphere (Sphere.make (Vector.mk (-10) 0 0) 1 (Vector.mk 0 1 0));
      AShape (Shape.mk (Vector.mk 0 0 1)) ]
    (Ray.mk (Vector.mk 0 0 0) (Vector.mk 1 0 0)) = Vector.mk 0 0 0.
Proof.
  apply nearest_hit_background.
  repeat constructor; vm_compute; reflexivity.
Defined.

(** C10: [Shape::intersects] returns 0 for every ray, and a plain [Shape]
    anywhere in the scene changes neither the outcome of the scan nor the
    colour of any pixel: the scene without it gives the same. *)
Theorem base_shape_never_wins :
  (forall (s : Shape.t) (r : Ray.t),
      Shape.intersects s r = 0%float /\ intersects (AShape s) r = 0%float) /\
  (forall (pre post : list object) (s : Shape.t) (ray : Ray.t),
      nearest_scan (pre ++ AShape s :: post) ray = nearest_scan (pre ++ post) ray /\
      nearest_hit (pre ++ AShape s :: post) ray = nearest_hit (pre ++ post) ray) /\
  (forall (ord : arg_order) (pre post : list object) (s : Shape.t)
          (camera : Ray.t) (cx cy : Vector.t) (w h x y : Z),
      pixel_color ord (pre ++ AShape s :: post) camera cx cy w h x y
      = pixel_color ord (pre ++ post) camera cx cy w h x y).
Proof.
  assert (Hscan : forall pre post s ray,
             nearest_scan (pre ++ AShape s :: post) ray
             = nearest_scan (pre ++ post) ray).
  { intros pre post s ray. unfold nearest_scan.
    rewrite !fold_left_app. cbn [fold_left].
    now rewrite (nearest_step_miss ray _ (AShape s)). }
  split; [|split].
  - intros s r. split; reflexivity.
  - intros pre post s ray. split; [apply Hscan|].
    unfold nearest_hit. now rewrite Hscan.
  - intros. unfold pixel_color, nearest_hit. now rewrite Hscan.
Qed.

(** C4, as stated, for a scene of one sphere far along the ray: its
    distance, 2e21, is strictly positive and the smallest of the scene,
    yet it is not below the initial [closest] and the scan returns the
    background instead of the sphere's colour. *)
Lemma nearest_hit_ignores_beyond_closest_init :
  let s := ASphere (Sphere.make (Vector.mk 1e21 0 0) 1 (Vector.mk 1 1 1)) in
  let ray := Ray.mk (Vector.mk 0 0 0) (Vector.mk 1 0 0) in
  intersects s ray = 2e21%float /\
  (0 <? intersects s ray)%float = true /\
  nearest_hit [s] ray = Vector.zero /\
  nearest_hit [s] ray <> color s.
Proof.
  cbv zeta. split; [reflexivity|]. split; [reflexivity|]. split; [reflexivity|].
  intros H. apply (f_equal (fun v => (Vector.x v <? 1)%float)) in H.
  vm_compute in H. discriminate.
Qed.

(** C4, amended: the scan returns the colour of the shape with the
    smallest intersection distance among those that are strictly positive
    and strictly below the initial [closest] (the binary32 constant
    [1e20f]); of several shapes at that distance the first in scene order
    wins. Shapes at or beyond the initial [closest] are passed over. *)
Theorem nearest_hit_smallest (scene : list object) (ray : Ray.t)
    (i : nat) (obj : object) :
  scene !! i = Some obj ->
  accepted (intersects obj ray) = true ->
  (forall (j : nat) (o : object),
      scene !! j = Some o -> accepted (intersects o ray) = true ->
      (intersects o ray <? intersects obj ray)%float = false) ->
  (forall (j : nat) (o : object),
      (j < i)%nat -> scene !! j = Some o -> accepted (intersects o ray) = true ->
      (intersects obj ray <? intersects o ray)%float = true) ->
  nearest_hit scene ray = color obj.
Proof.
  intros Hi Hacc Hmin Hfirst. unfold nearest_hit.
  now rewrite (scan_smallest ray scene i obj Hi Hacc Hmin Hfirst).
Qed.

(** Two spheres along the same ray, 10 and 20 away from its origin: the
    colour of the one 10 away is returned, here with that sphere second
    in the scene. *)
Lemma nearest_hit_smallest_witness :
  let near := ASphere (Sphere.make (Vector.mk 11 0 0) 1 (Vector.mk 1 0 0)) in
  let far := ASphere (Sphere.make (Vector.mk 21 0 0) 1 (Vector.mk 0 1 0)) in
  let ray := Ray.mk (Vector.mk 0 0 0) (Vector.mk 1 0 0) in
  nearest_hit [far; near] ray = color near.
Proof.
  cbv zeta. apply (nearest_hit_smallest _ _ 1%nat).
  - reflexivity.
  - vm_compute. reflexivity.
  - intros [|[|j]] o Ho _; cbn in Ho; try discriminate;
      injection Ho as <-; vm_compute; reflexivity.
  - intros [|[|j]] o Hj Ho _; try lia.
    cbn in Ho. injection Ho as <-. vm_compute. reflexivity.
Defined.

Example nearest_hit_two_spheres_in_order :
  let near := ASphere (Sphere.make (Vector.mk 11 0 0) 1 (Vector.mk 1 0 0)) in
  let far := ASphere (Sphere.make (Vector.mk 21 0 0) 1 (Vector.mk 0 1 0)) in
  let ray := Ray.mk (Vector.mk 0 0 0) (Vector.mk 1 0 0) in
  nearest_hit [near; far] ray = Vector.mk 1 0 0 /\
  nearest_hit [far; near] ray = Vector.mk 1 0 0.
Proof. split; reflexivity. Qed.

Example nearest_hit_tie_first_wins :
  let a := ASphere (Sphere.make (Vector.mk 11 0 0) 1 (Vector.mk 1 0 0)) in
  let b := ASphere (Sphere.make (Vector.mk 11 0 0) 1 (Vector.mk 0 1 0)) in
  let ray := Ray.mk (Vector.mk 0 0 0) (Vector.mk 1 0 0) in
  nearest_hit [a; b] ray = Vector.mk 1 0 0 /\
  nearest_hit [b; a] ray = Vector.mk 0 1 0.
Proof. split; reflexivity. Qed.

(** ** Camera rays *)

(** C5, at pixel (0, 0) of [main] when [d.norm()] is evaluated before the
    first argument of [Ray(...)]: the origin is the camera origin plus
    140 times the normalised [d], not the un-normalised one. *)
Lemma pixel_ray_right_to_left_origin :
  let d := pixel_d main.camera main.cx main.cy main.w main.h 0 0 in
  let ray := pixel_ray RightToLeft main.camera main.cx main.cy main.w main.h 0 0 in
  Ray.origin ray = (Ray.origin main.camera + Vector.norm d * 140)%vec /\
  Ray.origin ray <> (Ray.origin main.camera + d * 140)%vec.
Proof.
  cbv zeta. split; [reflexivity|].
  intros H. apply (f_equal (fun v => (Vector.x v =? 14.055)%float)) in H.
  vm_compute in H. discriminate.
Qed.

(** The ray of a pixel under either order: with
    [d = cx * ((x / w) - 0.5) + cy * ((y / h) - 0.5) + forward]
    (the quotients taken in binary32), the direction of the ray is the
    normalised [d]; its origin is the camera origin plus 140 times [d] as
    it stands when the first argument of [Ray(...)] is evaluated: the
    un-normalised [d] when the arguments are evaluated left to right, the
    normalised [d] when they are evaluated right to left. *)
Theorem pixel_ray_built (ord : arg_order) (camera : Ray.t) (cx cy : Vector.t)
    (w h x y : Z) :
  let qx := F32.to_double (F32.div (F32.of_int x) (F32.of_int w)) in
  let qy := F32.to_double (F32.div (F32.of_int y) (F32.of_int h)) in
  let d := (cx * (qx - 0.5)%float + cy * (qy - 0.5)%float
            + Ray.direction camera)%vec in
  let ray := pixel_ray ord camera cx cy w h x y in
  Ray.direction ray = Vector.norm d /\
  Ray.origin ray =
    (Ray.origin camera
     + match ord with
       | LeftToRight => d
       | RightToLeft => Vector.norm d
       end * 140)%vec.
Proof. destruct ord; split; reflexivity. Qed.

(** The order shows in the picture: pixel (255, 255) of [main] is the
    light with one order and a wall with the other. *)
Example pixel_color_depends_on_order :
  setup_color (main_setup LeftToRight) 255 255 = Vector.mk 1 1 1 /\
  setup_color (main_setup RightToLeft) 255 255 = Vector.mk 0.75 0.75 0.75.
Proof. split; vm_compute; reflexivity. Qed.


(** ** The pixel loops *)

Section Loops.
Variable c : setup.

Lemma step_deterministic (s s1 s2 : loop) :
  step c s s1 -> step c s s2 -> s1 = s2.
Proof.
  intros H1 H2. inversion H1; subst; inversion H2; subst;
    solve [reflexivity | lia].
Qed.

Lemma finished_stuck (s s' : loop) : finished c s -> ~ step c s s'.
Proof.
  unfold finished. intros Hf Hs. inversion Hs; subst; cbn in Hf; lia.
Qed.

Lemma run_end_unique (s a b : loop) :
  rtc (step c) s a -> finished c a ->
  rtc (step c) s b -> finished c b -> a = b.
Proof.
  intros Ha. revert b.
  induction Ha as [s | s s1 a Hs Ha IH]; intros b Hfa Hb Hfb.
  - destruct (rtc_inv _ _ Hb) as [E | (s2 & Hs2 & _)]; [exact E|].
    now destruct (finished_stuck _ _ Hfa Hs2).
  - destruct (rtc_inv _ _ Hb) as [<- | (s2 & Hs2 & Hb2)].
    + now destruct (finished_stuck _ _ Hfb Hs).
    + rewrite <- (step_deterministic _ _ _ Hs Hs2) in Hb2. now apply IH.
Qed.

Lemma row_steps (n : nat) (y x : Z) (tr : list call) :
  y < h c -> n = Z.to_nat (w c - x) ->
  rtc (step c) (mk_loop y x tr) (mk_loop (y + 1) 0 (tr ++ row_from c y x)).
Proof.
  intros Hy. revert x tr. induction n as [|n IH]; intros x tr Hn.
  - unfold row_from. rewrite seqZ_nil by lia. cbn. rewrite app_nil_r.
    apply rtc_once. apply step_row; lia.
  - eapply rtc_l; [apply step_pixel; lia|].
    unfold row_from. rewrite seqZ_cons by lia. rewrite bind_cons.
    rewrite app_assoc.
    replace (Z.pred (w c - x)) with (w c - Z.succ x) by lia.
    apply (IH (Z.succ x)). lia.
Qed.

Lemma rows_run (n : nat) (y : Z) (tr : list call) :
  n = Z.to_nat (h c - y) ->
  exists s, rtc (step c) (mk_loop y 0 tr) s /\ finished c s /\
            made s = tr ++ (y' ← seqZ y (h c - y); row_from c y' 0).
Proof.
  revert y tr. induction n as [|n IH]; intros y tr Hn.
  - exists (mk_loop y 0 tr). split; [constructor|]. split.
    + unfold finished; cbn; lia.
    + rewrite seqZ_nil by lia. cbn. now rewrite app_nil_r.
  - destruct (IH (Z.succ y) (tr ++ row_from c y 0)) as (s & Hs & Hf & Hm); [lia|].
    exists s. split; [|split; [exact Hf|]].
    + eapply rtc_trans; [|exact Hs].
      apply (row_steps (Z.to_nat (w c - 0))); [lia | reflexivity].
    + rewrite Hm. rewrite (seqZ_cons y) by lia. rewrite bind_cons.
      rewrite app_assoc.
      now replace (Z.pred (h c - y)) with (h c - Z.succ y) by lia.
Qed.

(** The loops terminate, and the calls they make are [calls]. *)
Lemma run_calls : run c (calls c).
Proof.
  destruct (rows_run (Z.to_nat (h c - 0)) 0 [] eq_refl) as (s & Hs & Hf & Hm).
  exists s. split; [exact Hs|]. split; [exact Hf|].
  rewrite Hm. cbn [app]. unfold calls, row_from.
  rewrite !Z.sub_0_r. reflexivity.
Qed.

Lemma calls_color (x y : Z) (v : Vector.t) :
  (x, y, v) ∈ calls c -> v = setup_color c x y.
Proof.
  unfold calls. intros H.
  apply list_elem_of_bind in H as (y' & H & _).
  apply list_elem_of_bind in H as (x' & H & _).
  apply list_elem_of_singleton in H. now injection H as -> -> ->.
Qed.
End Loops.

(** With the scene, the camera parameters and the order in which the
    compiled program evaluates the arguments of [Ray(...)] all fixed, two
    complete runs of the pixel loops make the same calls of [setPixel],
    with the same colour for every pixel: the colour of pixel [(x, y)] is
    the one the pipeline computes from [(x, y)] and the fixed parameters
    alone. *)
Theorem render_deterministic (c : setup) (tr1 tr2 : list call) :
  run c tr1 -> run c tr2 ->
  tr1 = tr2 /\
  tr1 = calls c /\
  forall (x y : Z) (v : Vector.t), (x, y, v) ∈ tr1 -> v = setup_color c x y.
Proof.
  assert (Huniq : forall tr, run c tr -> tr = calls c).
  { intros tr (s & Hs & Hf & <-).
    destruct (run_calls c) as (s' & Hs' & Hf' & <-).
    now rewrite (run_end_unique c _ _ _ Hs Hf Hs' Hf'). }
  intros H1 H2.
  rewrite (Huniq tr1 H1), (Huniq tr2 H2).
  split; [reflexivity|]. split; [reflexivity|].
  apply calls_color.
Qed.

Lemma tiny_run :
  run tiny_setup [ (0, 0, setup_color tiny_setup 0 0);
                   (1, 0, setup_color tiny_setup 1 0) ].
Proof.
  exists (mk_loop 1 0 [ (0, 0, setup_color tiny_setup 0 0);
                        (1, 0, setup_color tiny_setup 1 0) ]).
  split; [|split].
  - eapply rtc_l; [apply (step_pixel tiny_setup 0 0 []); cbn; lia|].
    eapply rtc_l; [apply (step_pixel tiny_setup 0 1); cbn; lia|].
    eapply rtc_l; [apply (step_row tiny_setup 0 2); cbn; lia|].
    apply rtc_refl.
  - unfold finished; cbn; lia.
  - reflexivity.
Qed.

Lemma render_deterministic_witness :
  [ (0, 0, setup_color tiny_setup 0 0); (1, 0, setup_color tiny_setup 1 0) ]
  = calls tiny_setup.
Proof.
  exact (proj1 (proj2 (render_deterministic tiny_setup _ _ tiny_run tiny_run))).
Defined.

(** ** [Image::save] and the round trip *)

Lemma append_nil_r (s : string) : (s ++ "")%string = s.
Proof. induction s as [|a s IH]; cbn; [reflexivity | now rewrite IH]. Qed.

Lemma append_assoc (s1 s2 s3 : string) :
  ((s1 ++ s2) ++ s3)%string = (s1 ++ (s2 ++ s3))%string.
Proof. induction s1 as [|a s1 IH]; cbn; [reflexivity | now rewrite IH]. Qed.

Lemma words_word (tok : string) :
  forall (cur : string) (c : ascii) (rest : string),
    solid tok = true -> Reader.is_space c = true ->
    (cur ++ tok)%string <> EmptyString ->
    Reader.words cur (tok ++ String c rest)
    = (cur ++ tok)%string :: Reader.words EmptyString rest.
Proof.
  induction tok as [|a tok IH]; intros cur c rest Hs Hc Hne.
  - rewrite append_nil_r in *. cbn. rewrite Hc.
    destruct cur; [contradiction | reflexivity].
  - cbn in Hs. apply andb_true_iff in Hs as [Ha Hs].
    apply negb_true_iff in Ha. cbn. rewrite Ha.
    rewrite (IH (cur ++ String a "")%string c rest Hs Hc).
    + now rewrite append_assoc.
    + rewrite append_assoc. cbn. destruct cur; discriminate.
Qed.

Lemma string_of_uint_solid (d : Decimal.uint) :
  solid (NilEmpty.string_of_uint d) = true.
Proof. induction d; cbn; auto. Qed.

Lemma decimal_solid (n : Z) : solid (decimal n) = true.
Proof. apply string_of_uint_solid. Qed.

Lemma decimal_nonempty (n : Z) : decimal n <> EmptyString.
Proof.
  unfold decimal. destruct (Z.to_N n) as [|p]; cbn; [discriminate|].
  pose proof (DecimalPos.Unsigned.to_uint_nonnil p) as Hp.
  destruct (Pos.to_uint p); cbn; [contradiction | discriminate ..].
Qed.

Lemma number_decimal (n : Z) : 0 <= n -> Reader.number (decimal n) = Some n.
Proof.
  intros Hn. unfold Reader.number.
  pose proof (decimal_nonempty n) as Hne.
  destruct (decimal n) eqn:E; [contradiction|]. rewrite <- E.
  unfold decimal. rewrite NilEmpty.usu. cbn.
  rewrite DecimalN.Unsigned.of_to. f_equal. lia.
Qed.

Lemma to_unsigned_range (f : float) (n : Z) :
  to_unsigned f = Some n -> 0 <= n < 2 ^ 32.
Proof.
  unfold to_unsigned. destruct (Prim2SF f) as [s|s| |s m e]; try discriminate.
  - intros [= <-]. lia.
  - destruct s.
    + destruct (Z.shiftl (Z.pos m) e =? 0); [|discriminate].
      intros [= <-]. lia.
    + destruct (Z.shiftl (Z.pos m) e <? 2 ^ 32) eqn:E; [|discriminate].
      intros [= <-]. apply Z.ltb_lt in E. split; [|exact E].
      apply Z.shiftl_nonneg. lia.
Qed.

(** [to_unsigned] drops the fractional part of [m * 2^e]. *)
Lemma to_unsigned_truncates (f : float) (m : positive) (e n : Z) :
  Prim2SF f = S754_finite false m e ->
  to_unsigned f = Some n ->
  (0 <= e -> n = Z.pos m * 2 ^ e) /\
  (e < 0 -> n * 2 ^ (- e) <= Z.pos m < (n + 1) * 2 ^ (- e)).
Proof.
  unfold to_unsigned. intros -> H.
  destruct (Z.shiftl (Z.pos m) e <? 2 ^ 32); [|discriminate].
  injection H as <-. split; intros He.
  - now apply Z.shiftl_mul_pow2.
  - rewrite <- (Z.opp_involutive e) at 1 3.
    rewrite Z.shiftl_opp_r, Z.shiftr_div_pow2 by lia.
    assert (Hp : 0 < 2 ^ (- e)) by (apply Z.pow_pos_nonneg; lia).
    pose proof (Z.mul_div_le (Z.pos m) _ Hp).
    pose proof (Z.mul_succ_div_gt (Z.pos m) _ Hp).
    lia.
Qed.

Lemma rgb_range (p : Vector.t) (c : Z * Z * Z) :
  Image.rgb p = Some c -> 0 <= c.1.1 /\ 0 <= c.1.2 /\ 0 <= c.2.
Proof.
  unfold Image.rgb. intros H.
  destruct (to_unsigned (Vector.x p * _)) as [r|] eqn:Er; [|discriminate].
  destruct (to_unsigned (Vector.y p * _)) as [g|] eqn:Eg; [|discriminate].
  destruct (to_unsigned (Vector.z p * _)) as [b|] eqn:Eb; [|discriminate].
  cbn in H. injection H as <-. cbn.
  apply to_unsigned_range in Er, Eg, Eb. lia.
Qed.

Lemma words_lines (cs : list (Z * Z * Z)) :
  Reader.words EmptyString (String.concat "" (Image.line <$> cs))
  = cs ≫= line_words.
Proof.
  assert (Hcat : forall l : list string,
             String.concat "" l = fold_right String.append EmptyString l).
  { induction l as [|a [|b l] IH]; cbn in *;
      [reflexivity | now rewrite append_nil_r | now rewrite IH]. }
  rewrite Hcat.
  induction cs as [|c cs IH]; [reflexivity|].
  rewrite fmap_cons, bind_cons. cbn [fold_right].
  unfold Image.line at 1, endl. rewrite !append_assoc. cbn [String.append].
  rewrite (words_word (decimal c.1.1) EmptyString " ");
    [| apply decimal_solid | reflexivity | apply decimal_nonempty].
  rewrite (words_word (decimal c.1.2) EmptyString " ");
    [| apply decimal_solid | reflexivity | apply decimal_nonempty].
  rewrite (words_word (decimal c.2) EmptyString (ascii_of_nat 10));
    [| apply decimal_solid | reflexivity | apply decimal_nonempty].
  rewrite IH. reflexivity.
Qed.

Lemma numbers_lines (cs : list (Z * Z * Z)) :
  Forall (fun c => 0 <= c.1.1 /\ 0 <= c.1.2 /\ 0 <= c.2) cs ->
  mapM Reader.number (cs ≫= line_words) = Some (cs ≫= channels).
Proof.
  induction 1 as [|c cs (Hr & Hg & Hb) _ IH]; [reflexivity|].
  rewrite !bind_cons. unfold line_words at 1, channels at 1.
  cbn [app mapM].
  rewrite !number_decimal by assumption. rewrite IH. reflexivity.
Qed.

Lemma triples_channels (cs : list (Z * Z * Z)) :
  Reader.triples (cs ≫= channels) = Some cs.
Proof.
  induction cs as [|[[r g] b] cs IH]; [reflexivity|].
  rewrite bind_cons. cbn [channels app Reader.triples fst snd].
  now rewrite IH.
Qed.

Lemma words_header (img : Image.t) (body : string) :
  Reader.words EmptyString (Image.header img ++ body)
  = "P3"%string :: decimal (Image.width img) :: decimal (Image.height img)
      :: decimal 255 :: Reader.words EmptyString body.
Proof.
  unfold Image.header, endl. rewrite !append_assoc.
  cbn [String.append]. cbn [Reader.words Reader.is_space nat_of_ascii].
  change (Reader.words "P3" (String " " ?s)) with ("P3"%string :: Reader.words "" s).
  f_equal.
  rewrite (words_word (decimal (Image.width img)) EmptyString " ");
    [| apply decimal_solid | reflexivity | apply decimal_nonempty].
  rewrite (words_word (decimal (Image.height img)) EmptyString " ");
    [| apply decimal_solid | reflexivity | apply decimal_nonempty].
  rewrite (words_word (decimal 255) EmptyString (ascii_of_nat 10));
    [| apply decimal_solid | reflexivity | apply decimal_nonempty].
  reflexivity.
Qed.

(** What a reader finds in a text made of a header and the lines of the
    colours [cs]. *)
Lemma read_header_lines (img : Image.t) (cs : list (Z * Z * Z)) :
  0 <= Image.width img -> 0 <= Image.height img ->
  Forall (fun c => 0 <= c.1.1 /\ 0 <= c.1.2 /\ 0 <= c.2) cs ->
  Reader.read (Image.header img ++ String.concat "" (Image.line <$> cs))
  = Some (Reader.mk_ppm (Image.width img) (Image.height img) 255 cs).
Proof.
  intros Hw Hh Hcs. unfold Reader.read.
  rewrite words_header, words_lines. cbn [String.eqb Ascii.eqb Bool.eqb].
  cbn [mapM]. rewrite !number_decimal by lia.
  rewrite (numbers_lines cs Hcs). cbn [mbind option_bind mret option_ret].
  now rewrite triples_channels.
Qed.

(** The loop of [save] reads the buffer from its first element to its
    last. *)
Lemma mapM_lookup_seq {A B : Type} (f : A -> option B) (l : list A) :
  forall pre : list A,
    mapM (fun i => p ← (pre ++ l) !! i; f p) (seq (length pre) (length l))
    = mapM f l.
Proof.
  induction l as [|a l IH]; intros pre; [reflexivity|].
  cbn [length seq mapM].
  rewrite list_lookup_middle by reflexivity. cbn [mbind option_bind].
  specialize (IH (pre ++ [a])).
  rewrite <- app_assoc, length_app in IH. cbn [app length] in IH.
  rewrite Nat.add_1_r in IH. now rewrite IH.
Qed.

Lemma mapM_bind_Some {A B C : Type} (f : A -> option B) (g : B -> C) (l : list A) :
  mapM (fun p => c ← f p; Some (g c)) l = (fmap g) <$> mapM f l.
Proof.
  induction l as [|a l IH]; [reflexivity|].
  cbn [mapM]. rewrite IH.
  destruct (f a) as [b|]; [|reflexivity]. cbn.
  destruct (mapM f l); reflexivity.
Qed.

Lemma lines_rgb (img : Image.t) :
  wf_image img ->
  Z.of_nat (length (Image.pixels img)) <= INT_MAX ->
  Image.lines img = (fmap Image.line) <$> mapM Image.rgb (Image.pixels img).
Proof.
  intros (_ & _ & Hl) Hn. unfold Image.lines. rewrite <- Hl.
  rewrite Hl in Hn.
  assert (0 <= wrap32 (Image.width img * Image.height img))
    by (apply Z.mod_pos_bound; lia).
  rewrite Z2Nat.id in Hn by assumption.
  apply Z.leb_le in Hn. rewrite Hn.
  rewrite <- mapM_bind_Some.
  exact (mapM_lookup_seq _ (Image.pixels img) []).
Qed.

(** Beyond [INT_MAX] elements [save] has no defined outcome. *)
Lemma lines_overflow (img : Image.t) :
  wf_image img ->
  INT_MAX < Z.of_nat (length (Image.pixels img)) ->
  Image.lines img = None /\ Image.save img = None.
Proof.
  intros (_ & _ & Hl) Hn. rewrite Hl in Hn.
  assert (0 <= wrap32 (Image.width img * Image.height img))
    by (apply Z.mod_pos_bound; lia).
  rewrite Z2Nat.id in Hn by assumption.
  apply Z.leb_gt in Hn.
  assert (E : Image.lines img = None) by (unfold Image.lines; now rewrite Hn).
  split; [exact E|]. unfold Image.save. now rewrite E.
Qed.



Example rgb_red : Image.rgb (Vector.mk 1 0 0) = Some (255, 0, 0).
Proof. reflexivity. Qed.

Example rgb_truncates :
  Image.rgb (Vector.mk 0.75 0.5 0.999) = Some (191, 127, 254).
Proof. reflexivity. Qed.

(** *** Rounding of a product that stays below 256 *)
















Example save_uniform_red_read :
  let img := Image.mk 2 1 [Vector.mk 1 0 0; Vector.mk 1 0 0] in
  exists text,
    Image.save img = Some text /\
    Reader.read text = Some (Reader.mk_ppm 2 1 255 [(255, 0, 0); (255, 0, 0)]).
Proof. eexists. split; reflexivity. Qed.

Example save_uniform_red_text :
  Image.save (Image.mk 2 1 [Vector.mk 1 0 0; Vector.mk 1 0 0])
  = Some ("P3 2 1 255" ++ endl ++ "255 0 0" ++ endl ++ "255 0 0" ++ endl)%string.
Proof. reflexivity. Qed.

(** * Further properties *)

(** ** Arithmetic of [double]s *)

Lemma SFadd_comm prec emax a b : SFadd prec emax a b = SFadd prec emax b a.
Proof.
  destruct a as [sa|sa| |sa ma ea], b as [sb|sb| |sb mb eb]; cbn [SFadd];
    try reflexivity; try (destruct sa, sb; reflexivity).
  now rewrite Z.add_comm, (Z.min_comm eb ea).
Qed.

Lemma SFmul_comm prec emax a b : SFmul prec emax a b = SFmul prec emax b a.
Proof.
  destruct a as [sa|sa| |sa ma ea], b as [sb|sb| |sb mb eb]; cbn [SFmul];
    try reflexivity; try (destruct sa, sb; reflexivity).
  now rewrite xorb_comm, Pos.mul_comm, Z.add_comm.
Qed.

Lemma float_add_comm (a b : float) : (a + b = b + a)%float.
Proof. apply Prim2SF_inj. rewrite !add_spec. apply SFadd_comm. Qed.

Lemma float_mul_comm (a b : float) : (a * b = b * a)%float.
Proof. apply Prim2SF_inj. rewrite !mul_spec. apply SFmul_comm. Qed.

Lemma float_of_spec (f : float) (x : spec_float) :
  Prim2SF f = x -> f = SF2Prim x.
Proof. intros <-. symmetry. apply SF2Prim_Prim2SF. Qed.

(** [a - a] is [+0], or a NaN when [a] is infinite or a NaN. *)
Lemma float_sub_diag (a : float) : (a - a)%float = 0%float \/ (a - a)%float = nan.
Proof.
  assert (H : Prim2SF (a - a) = S754_zero false \/ Prim2SF (a - a) = S754_nan).
  { rewrite sub_spec. unfold SF64sub.
    destruct (Prim2SF a) as [s|s| |s m e]; cbn [SFsub].
    - left. destruct s; reflexivity.
    - right. destruct s; reflexivity.
    - now right.
    - left. rewrite Z.sub_diag. reflexivity. }
  destruct H as [H | H]; apply float_of_spec in H; [now left | now right].
Qed.

(** A product with an infinity is an infinity or a NaN. *)
Lemma float_mul_infinite (a i : float) :
  i = infinity \/ i = neg_infinity -> is_finite (a * i) = false.
Proof.
  intros Hi.
  assert (H : exists s, Prim2SF i = S754_infinity s)
    by (destruct Hi as [-> | ->]; eexists; reflexivity).
  destruct H as (s & Hs).
  assert (H : Prim2SF (a * i) = S754_nan
              \/ exists s', Prim2SF (a * i) = S754_infinity s').
  { rewrite mul_spec, Hs. destruct (Prim2SF a) as [sa|sa| |sa ma ea]; cbn;
      [now left | right; eexists; reflexivity | now left
       | right; eexists; reflexivity]. }
  destruct H as [H | (s' & H)]; apply float_of_spec in H; rewrite H;
    [|destruct s']; reflexivity.
Qed.

Lemma float_eqb_zero (a : float) :
  (a =? 0)%float = true -> a = 0%float \/ a = (-0)%float.
Proof.
  rewrite FloatAxioms.eqb_spec. unfold SFeqb.
  destruct (Prim2SF a) as [s|s| |s m e] eqn:E; cbn; try discriminate.
  - intros _. apply float_of_spec in E. destruct s; [now right | now left].
  - destruct s; discriminate.
  - destruct s; discriminate.
Qed.

Lemma binary_round_aux_sign prec emax s m e l :
  signed_or_nan s (binary_round_aux prec emax s m e l).
Proof.
  unfold binary_round_aux.
  destruct (shr_fexp prec emax m e l) as [mrs' e'].
  destruct (shr_fexp prec emax _ e' loc_Exact) as [mrs'' e''].
  destruct (shr_m mrs''); cbn; auto.
  destruct (e'' <=? emax - prec); cbn; auto.
Qed.

Lemma binary_round_sign prec emax s m e :
  signed_or_nan s (binary_round prec emax s m e).
Proof.
  unfold binary_round. destruct (shl_align _ _ _) as [mz ez].
  apply binary_round_aux_sign.
Qed.

Lemma SFsqrt_sign prec emax x : signed_or_nan false (SFsqrt prec emax x).
Proof.
  destruct x as [s|[|]| |[|] m e]; cbn; auto.
  destruct (SFsqrt_core_binary prec emax (Z.pos m) e) as [[mz ez] lz].
  apply binary_round_aux_sign.
Qed.

(** [(- a) - q] for [a >= 0] and [q] a square root: never positive. *)
Lemma SFsub_nonpos prec emax a q :
  SFleb (S754_zero false) a = true ->
  signed_or_nan false q ->
  signed_or_nan true (SFsub prec emax (SFopp a) q).
Proof.
  destruct a as [sa|sa| |sa ma ea]; cbn [SFleb SFcompare]; try discriminate;
    intros Ha;
    destruct q as [sq|sq| |sq mq eq]; cbn [signed_or_nan]; intros Hq; subst;
    try (destruct sa; try discriminate);
    try (destruct sq); cbn [SFsub SFopp negb signed_or_nan]; auto.
  cbn [cond_Zopp]. unfold binary_normalize.
  destruct (shl_align ma ea (Z.min ea eq)) as [p1 e1].
  destruct (shl_align mq eq (Z.min ea eq)) as [p2 e2]. cbn [fst].
  change (- Z.pos p1 - Z.pos p2) with (Z.neg (p1 + p2)).
  apply binary_round_sign.
Qed.

Lemma EPSILON_not_below (x : float) :
  signed_or_nan true (Prim2SF x) -> (EPSILON <? x)%float = false.
Proof.
  rewrite ltb_spec.
  change (Prim2SF EPSILON) with (S754_finite false 5764607394185216 (-59)).
  destruct (Prim2SF x) as [s|s| |s m e]; cbn; intros H; subst; reflexivity.
Qed.

(** ** [struct Vector] *)

(** X1: [operator+] and [dot] do not depend on the order of their
    operands: the results are the same [double]s, a NaN on one side being
    a NaN on the other (sign and payload of a NaN are not part of the
    model). *)
Theorem vector_add_dot_commute (v o : Vector.t) :
  (v + o)%vec = (o + v)%vec /\ Vector.dot v o = Vector.dot o v.
Proof.
  unfold Vector.op_add, Vector.dot. split.
  - now rewrite (float_add_comm (Vector.x v)), (float_add_comm (Vector.y v)),
      (float_add_comm (Vector.z v)).
  - now rewrite (float_mul_comm (Vector.x v)), (float_mul_comm (Vector.y v)),
      (float_mul_comm (Vector.z v)).
Qed.

(** X2: [v.cross(v)]: every component is [+0], or a NaN when the products
    overflow or [v] holds a NaN. *)
Theorem cross_self (v : Vector.t) :
  let c := Vector.cross v v in
  (Vector.x c = 0%float \/ Vector.x c = nan) /\
  (Vector.y c = 0%float \/ Vector.y c = nan) /\
  (Vector.z c = 0%float \/ Vector.z c = nan).
Proof.
  cbn. rewrite (float_mul_comm (Vector.z v) (Vector.y v)),
    (float_mul_comm (Vector.x v) (Vector.z v)),
    (float_mul_comm (Vector.y v) (Vector.x v)).
  repeat split; apply float_sub_diag.
Qed.

(** X3: [norm] on a vector whose squared length computes to zero (a zero
    vector, or components so small that their squares underflow): the
    factor [1 / sqrt(0)] is infinite and no component of the result is a
    finite number. *)
Theorem norm_zero_length (v : Vector.t) :
  (Vector.x v * Vector.x v + Vector.y v * Vector.y v
   + Vector.z v * Vector.z v =? 0)%float = true ->
  is_finite (Vector.x (Vector.norm v)) = false /\
  is_finite (Vector.y (Vector.norm v)) = false /\
  is_finite (Vector.z (Vector.norm v)) = false.
Proof.
  intros H. apply float_eqb_zero in H.
  unfold Vector.norm, Vector.op_mul. cbn [Vector.x Vector.y Vector.z].
  assert (Hi : (1 / sqrt (Vector.x v * Vector.x v + Vector.y v * Vector.y v
                          + Vector.z v * Vector.z v))%float = infinity
               \/ (1 / sqrt (Vector.x v * Vector.x v + Vector.y v * Vector.y v
                             + Vector.z v * Vector.z v))%float = neg_infinity)
    by (destruct H as [-> | ->]; [left | right]; reflexivity).
  repeat split; apply float_mul_infinite; exact Hi.
Qed.

Lemma norm_zero_length_witness :
  is_finite (Vector.x (Vector.norm (Vector.mk 1e-200 0 0))) = false.
Proof.
  apply (norm_zero_length (Vector.mk 1e-200 0 0)). vm_compute. reflexivity.
Defined.

(** ** [Sphere::intersects], rays that do not head for the centre *)

(** X4: When [b = 2 * offset.dot(direction)] is not negative, the first test
    [t > EPSILON], on [-b - sqrt(disc)], fails: what [intersects] returns
    is 0 or the second candidate [-b + sqrt(disc)]. *)
Theorem intersects_heading_away (s : Sphere.t) (r : Ray.t) :
  (0 <=? quadratic_b s r)%float = true ->
  (EPSILON <? t1 s r)%float = false /\
  (Sphere.intersects s r = 0%float \/ Sphere.intersects s r = t2 s r).
Proof.
  intros Hb.
  assert (H1 : (EPSILON <? t1 s r)%float = false).
  { apply EPSILON_not_below. unfold t1.
    rewrite sub_spec, opp_spec, sqrt_spec.
    apply SFsub_nonpos; [|apply SFsqrt_sign].
    now rewrite FloatAxioms.leb_spec in Hb. }
  split; [exact H1|].
  rewrite intersects_unfold, H1.
  destruct (discriminant s r <? 0)%float; [now left|].
  destruct (EPSILON <? t2 s r)%float; [now right | now left].
Qed.

Lemma intersects_heading_away_witness :
  let s := Sphere.make (Vector.mk (-10) 0 0) 1 (Vector.mk 1 1 1) in
  let r := Ray.mk (Vector.mk 0 0 0) (Vector.mk 1 0 0) in
  Sphere.intersects s r = 0%float \/ Sphere.intersects s r = t2 s r.
Proof.
  cbv zeta.
  apply (intersects_heading_away
           (Sphere.make (Vector.mk (-10) 0 0) 1 (Vector.mk 1 1 1))
           (Ray.mk (Vector.mk 0 0 0) (Vector.mk 1 0 0))).
  vm_compute. reflexivity.
Defined.

(** ** The scan of the scene, whatever the scene *)

Section ScanOutcome.
Variable ray : Ray.t.

#[local] Abbreviation hit obj := (intersects obj ray).

(** A scan either leaves its state alone or ends on one of the shapes
    scanned, with that shape's colour and distance. *)
Lemma scan_outcome (l : list object) (st : Vector.t * float) :
  fold_left (nearest_step ray) l st = st \/
  exists (j : nat) (obj : object),
    l !! j = Some obj /\
    fold_left (nearest_step ray) l st = (color obj, hit obj) /\
    (0 <? hit obj)%float = true /\ (hit obj <? snd st)%float = true.
Proof.
  revert st. induction l as [|o l IH]; intros st; cbn [fold_left].
  - now left.
  - destruct ((0 <? hit o)%float && (hit o <? snd st)%float)%bool eqn:E.
    + apply andb_true_iff in E as [Hpos Hlt].
      rewrite (nearest_step_take ray st o Hpos Hlt).
      right. destruct (IH (color o, hit o)) as [-> | (j & obj & Hj & Hs & Hp & Hl)].
      * exists 0%nat, o. repeat split; assumption.
      * exists (S j), obj. repeat split; try assumption.
        apply (ltb_trans _ (hit o)); assumption.
    + rewrite (nearest_step_keep ray st o E).
      destruct (IH st) as [-> | (j & obj & Hj & Hs & Hp & Hl)].
      * now left.
      * right. exists (S j), obj. repeat split; assumption.
Qed.

(** No shape scanned has a strictly positive distance strictly below the
    [closest] the scan ends with. *)
Lemma scan_lower_bound (l : list object) (st : Vector.t * float) (o : object) :
  o ∈ l -> (0 <? hit o)%float = true ->
  (hit o <? snd (fold_left (nearest_step ray) l st))%float = false.
Proof.
  intros Hin Hpos. revert st.
  induction Hin as [o l | o o' l Hin IH]; intros st; cbn [fold_left];
    [|apply IH; exact Hpos].
  destruct (hit o <? snd st)%float eqn:Hlt.
  - rewrite (nearest_step_take ray st o Hpos Hlt).
    destruct (scan_outcome l (color o, hit o))
      as [E | (j & obj & _ & E & _ & Hl)]; rewrite E; cbn [snd] in *.
    + apply ltb_irrefl.
    + now apply ltb_asym.
  - rewrite nearest_step_keep by (now rewrite Hpos, Hlt).
    destruct (scan_outcome l st) as [E | (j & obj & _ & E & _ & Hl)];
      rewrite E; cbn [snd]; [exact Hlt|].
    destruct (hit o <? hit obj)%float eqn:E'; [|reflexivity].
    now rewrite (ltb_trans _ _ _ E' Hl) in Hlt.
Qed.

Section Settle.
Variable obj : object.
Hypothesis Hacc : accepted (hit obj) = true.

Lemma settled_stays (o : object) :
  farther_or_same ray obj o ->
  nearest_step ray (color obj, hit obj) o = (color obj, hit obj).
Proof.
  intros Ho. apply nearest_step_keep. cbn [snd].
  destruct (0 <? hit o)%float eqn:Hp; [|reflexivity].
  destruct (hit o <? hit obj)%float eqn:Hl; [|reflexivity].
  destruct (proj1 (andb_true_iff _ _) Hacc) as [_ Hcl].
  destruct Ho as [Hf | (_ & He)].
  - unfold accepted. rewrite Hp. cbn. apply (ltb_trans _ (hit obj)); assumption.
  - now rewrite (ltb_asym _ _ Hl) in Hf.
  - rewrite He in Hl. now rewrite ltb_irrefl in Hl.
Qed.

Lemma settled_scan (l : list object) :
  Forall (farther_or_same ray obj) l ->
  fold_left (nearest_step ray) l (color obj, hit obj) = (color obj, hit obj).
Proof.
  induction 1 as [|o l Ho _ IH]; cbn [fold_left]; [reflexivity|].
  now rewrite settled_stays.
Qed.

Lemma open_step (st : Vector.t * float) (o : object) :
  farther_or_same ray obj o -> open_state ray obj st -> open_state ray obj (nearest_step ray st o).
Proof.
  intros Ho [-> | (Hlt & Hcl)].
  - left. now apply settled_stays.
  - destruct ((0 <? hit o)%float && (hit o <? snd st)%float)%bool eqn:E.
    + apply andb_true_iff in E as [Hp Hl].
      rewrite (nearest_step_take ray st o Hp Hl).
      assert (Hoc : (hit o <? closest_init)%float = true).
      { destruct Hcl as [<- | Hcl]; [exact Hl|].
        apply (ltb_trans _ (snd st)); assumption. }
      destruct Ho as [Hf | (Hc & Hh)].
      * unfold accepted. now rewrite Hp, Hoc.
      * right. cbn [snd]. split; [exact Hf | now right].
      * left. now rewrite Hc, Hh.
    + rewrite (nearest_step_keep ray st o E). right. now split.
Qed.

Lemma open_obj (st : Vector.t * float) :
  open_state ray obj st -> nearest_step ray st obj = (color obj, hit obj).
Proof.
  intros [-> | (Hlt & _)].
  - apply nearest_step_keep. cbn [snd]. rewrite ltb_irrefl. apply andb_false_r.
  - destruct (proj1 (andb_true_iff _ _) Hacc) as [Hp _].
    now apply nearest_step_take.
Qed.

Lemma open_scan (l : list object) (st : Vector.t * float) :
  Forall (farther_or_same ray obj) l -> obj ∈ l -> open_state ray obj st ->
  fold_left (nearest_step ray) l st = (color obj, hit obj).
Proof.
  revert st. induction l as [|o l IH]; intros st Hl Hin Hst.
  - now apply elem_of_nil in Hin.
  - apply Forall_cons in Hl as [Ho Hl]. cbn [fold_left].
    apply elem_of_cons in Hin as [Hin | Hin].
    + subst o. rewrite (open_obj st Hst). now apply settled_scan.
    + apply IH; [exact Hl | exact Hin |]. now apply open_step.
Qed.
End Settle.
End ScanOutcome.

(** X5: The scan never invents a result: it ends on the background with the
    initial [closest], or on the colour and distance of a shape of the
    scene whose distance is strictly positive and below the initial
    [closest]; and no shape of the scene has a strictly positive distance
    strictly below the [closest] it ends with. *)
Theorem nearest_scan_minimum (scene : list object) (ray : Ray.t) :
  (nearest_scan scene ray = (Vector.zero, closest_init) \/
   exists (j : nat) (obj : object),
     scene !! j = Some obj /\
     accepted (intersects obj ray) = true /\
     nearest_scan scene ray = (color obj, intersects obj ray)) /\
  (forall o : object,
      o ∈ scene -> (0 <? intersects o ray)%float = true ->
      (intersects o ray <? snd (nearest_scan scene ray))%float = false).
Proof.
  split.
  - destruct (scan_outcome ray scene (Vector.zero, closest_init))
      as [E | (j & obj & Hj & E & Hp & Hl)]; [now left|].
    right. exists j, obj. split; [exact Hj|]. split; [|exact E].
    unfold accepted. cbn [snd] in Hl. now rewrite Hp, Hl.
  - intros o Hin Hp. now apply scan_lower_bound.
Qed.

(** X6: The order of the scene does not matter when the nearest accepted
    distance belongs to shapes of one colour: if [obj] is in the scene,
    its distance is accepted, and every other accepted shape is strictly
    farther or as far and of the same colour, then every reordering of the
    scene gives the colour of [obj]. *)
Theorem nearest_hit_any_order (scene scene' : list object) (ray : Ray.t)
    (obj : object) :
  scene ≡ₚ scene' ->
  obj ∈ scene ->
  accepted (intersects obj ray) = true ->
  (forall o : object,
      o ∈ scene -> accepted (intersects o ray) = true ->
      (intersects obj ray <? intersects o ray)%float = true \/
      (color o = color obj /\ intersects o ray = intersects obj ray)) ->
  nearest_hit scene' ray = color obj /\
  nearest_hit scene' ray = nearest_hit scene ray.
Proof.
  intros Hperm Hin Hacc Hall.
  assert (Hany : forall l, l ≡ₚ scene -> nearest_hit l ray = color obj).
  { intros l Hl. unfold nearest_hit, nearest_scan.
    rewrite (open_scan ray obj Hacc l); [reflexivity | | |].
    - apply Forall_forall. intros o Ho. unfold farther_or_same.
      apply Hall. now rewrite <- Hl.
    - now rewrite Hl.
    - right. cbn [snd]. apply andb_true_iff in Hacc as [_ Hcl].
      split; [exact Hcl | now left]. }
  rewrite (Hany scene' (symmetry Hperm)), (Hany scene (reflexivity _)).
  now split.
Qed.

Lemma nearest_hit_any_order_witness :
  let near := ASphere (Sphere.make (Vector.mk 11 0 0) 1 (Vector.mk 1 0 0)) in
  let far := ASphere (Sphere.make (Vector.mk 21 0 0) 1 (Vector.mk 0 1 0)) in
  let miss := ASphere (Sphere.make (Vector.mk 0 5 0) 1 (Vector.mk 0 0 1)) in
  let ray := Ray.mk (Vector.mk 0 0 0) (Vector.mk 1 0 0) in
  nearest_hit [miss; near; far] ray = color near.
Proof.
  cbv zeta.
  apply (nearest_hit_any_order
           [ASphere (Sphere.make (Vector.mk 21 0 0) 1 (Vector.mk 0 1 0));
            ASphere (Sphere.make (Vector.mk 0 5 0) 1 (Vector.mk 0 0 1));
            ASphere (Sphere.make (Vector.mk 11 0 0) 1 (Vector.mk 1 0 0))]).
  - apply Permutation_cons_append.
  - repeat constructor.
  - vm_compute. reflexivity.
  - intros o Ho Hao.
    apply list_elem_of_In in Ho. cbn in Ho.
    destruct Ho as [<- | [<- | [<- | []]]].
    + left. vm_compute. reflexivity.
    + vm_compute in Hao. discriminate.
    + right. split; reflexivity.
Defined.

(** ** The pixel buffer *)

(** X7: Two different pixel coordinates of the rows [1 <= y <= height] never
    share a buffer element. *)
Theorem index_injective (img : Image.t) (x y x' y' : Z) :
  wf_image img ->
  Image.width img * Image.height img < 2 ^ 32 ->
  0 <= x < Image.width img -> 1 <= y <= Image.height img ->
  0 <= x' < Image.width img -> 1 <= y' <= Image.height img ->
  (x, y) <> (x', y') ->
  Image.index img x y <> Image.index img x' y'.
Proof.
  intros (Hw & Hh & _) Hwh Hx Hy Hx' Hy' Hne.
  rewrite !index_exact by nia.
  intros E. apply Hne.
  assert (y = y') by nia. subst y'.
  assert (x = x') by lia. now subst x'.
Qed.

Lemma index_injective_witness :
  Image.index (Image.make 2 2) 0 1 <> Image.index (Image.make 2 2) 1 2.
Proof.
  apply index_injective; try (cbn; lia).
  - apply make_wf; lia.
  - discriminate.
Defined.

(** X8: The calls made by the loops of [main] ([0 <= y < height]) never
    touch the first [width] elements of the buffer: the storage index is
    at least [width], and a call that succeeds leaves those elements as
    they were. *)
Theorem first_row_never_written (img img' : Image.t) (x y : Z) (v : Vector.t) :
  wf_image img ->
  Image.width img * (Image.height img + 1) <= 2 ^ 32 ->
  0 <= x < Image.width img -> 0 <= y < Image.height img ->
  Image.setPixel img x y v = Some img' ->
  Image.width img <= Image.index img x y /\
  forall j : nat,
    (j < Z.to_nat (Image.width img))%nat ->
    Image.pixels img' !! j = Image.pixels img !! j.
Proof.
  intros (Hw & Hh & _) Hwh Hx Hy Hs.
  assert (Hi : Image.index img x y
               = (Image.height img - y) * Image.width img + x)
    by (apply index_exact; nia).
  assert (Hge : Image.width img <= Image.index img x y) by (rewrite Hi; nia).
  split; [exact Hge|].
  intros j Hj. unfold Image.setPixel in Hs.
  destruct (decide _); [|discriminate]. injection Hs as <-. cbn.
  apply list_lookup_insert_ne. lia.
Qed.

Lemma first_row_never_written_witness :
  2 <= Image.index (Image.make 2 2) 1 1 /\
  Image.pixels (Image.mk 2 2 [Vector.zero; Vector.zero; Vector.zero; Vector.mk 1 0 0])
    !! 0%nat = Some Vector.zero.
Proof.
  destruct (first_row_never_written (Image.make 2 2)
              (Image.mk 2 2 [Vector.zero; Vector.zero; Vector.zero; Vector.mk 1 0 0])
              1 1 (Vector.mk 1 0 0)) as (Hge & H).
  - apply make_wf; lia.
  - cbn; lia.
  - cbn; lia.
  - cbn; lia.
  - reflexivity.
  - split; [exact Hge|]. rewrite (H 0%nat); [reflexivity | cbn; lia].
Defined.

Lemma index_nonneg (img : Image.t) (x y : Z) : 0 <= Image.index img x y.
Proof. unfold Image.index, wrap32. apply Z.mod_pos_bound. lia. Qed.

Lemma setPixel_Some (img a : Image.t) (x y : Z) (v : Vector.t) :
  Image.setPixel img x y v = Some a <->
  (Z.to_nat (Image.index img x y) < length (Image.pixels img))%nat /\
  a = Image.mk (Image.width img) (Image.height img)
               (<[Z.to_nat (Image.index img x y) := v]> (Image.pixels img)).
Proof.
  unfold Image.setPixel. destruct (decide _) as [Hlt | Hn]; split.
  - intros [= <-]. now split.
  - now intros (_ & ->).
  - discriminate.
  - now intros (Hlt & _).
Qed.

(** X9: Writing a pixel twice: the second colour replaces the first, as if
    the first write had not happened. *)
Theorem setPixel_overwrite (img img1 : Image.t) (x y : Z) (v1 v2 : Vector.t) :
  Image.setPixel img x y v1 = Some img1 ->
  Image.setPixel img1 x y v2 = Image.setPixel img x y v2.
Proof.
  intros H. apply setPixel_Some in H as (Hlt & ->).
  unfold Image.setPixel.
  change (Image.index (Image.mk _ _ _) x y) with (Image.index img x y).
  cbn [Image.width Image.height Image.pixels].
  rewrite length_insert.
  destruct (decide _) as [_|Hn]; [|contradiction].
  now rewrite list_insert_insert_eq.
Qed.

Lemma setPixel_overwrite_witness :
  Image.setPixel (Image.mk 2 2 [Vector.zero; Vector.zero; Vector.mk 1 0 0; Vector.zero])
                 0 1 (Vector.mk 0 1 0)
  = Image.setPixel (Image.make 2 2) 0 1 (Vector.mk 0 1 0).
Proof.
  apply (setPixel_overwrite (Image.make 2 2) _ 0 1 (Vector.mk 1 0 0)).
  reflexivity.
Defined.

(** X10: Writes to two different buffer elements can be swapped: the image
    after both is the same. *)
Theorem setPixel_commute (img a b : Image.t) (x y x' y' : Z) (v v' : Vector.t) :
  Image.index img x y <> Image.index img x' y' ->
  Image.setPixel img x y v = Some a ->
  Image.setPixel a x' y' v' = Some b ->
  exists a',
    Image.setPixel img x' y' v' = Some a' /\
    Image.setPixel a' x y v = Some b.
Proof.
  intros Hne Ha Hb.
  apply setPixel_Some in Ha as (Hlt & ->).
  apply setPixel_Some in Hb as (Hlt' & ->).
  change (Image.index (Image.mk (Image.width img) (Image.height img)
            (<[Z.to_nat (Image.index img x y):=v]> (Image.pixels img))) x' y')
    with (Image.index img x' y') in *.
  cbn [Image.width Image.height Image.pixels] in *.
  rewrite length_insert in Hlt'.
  exists (Image.mk (Image.width img) (Image.height img)
            (<[Z.to_nat (Image.index img x' y') := v']> (Image.pixels img))).
  split; apply setPixel_Some.
  - now split.
  - change (Image.index (Image.mk _ _ _) x y) with (Image.index img x y).
    cbn [Image.width Image.height Image.pixels].
    rewrite length_insert. split; [exact Hlt|].
    f_equal. apply list_insert_insert_ne.
    pose proof (index_nonneg img x y). pose proof (index_nonneg img x' y').
    lia.
Qed.

Lemma setPixel_commute_witness :
  exists a',
    Image.setPixel (Image.make 2 2) 1 1 (Vector.mk 0 1 0) = Some a' /\
    Image.setPixel a' 0 1 (Vector.mk 1 0 0)
    = Some (Image.mk 2 2 [Vector.zero; Vector.zero; Vector.mk 1 0 0; Vector.mk 0 1 0]).
Proof.
  apply (setPixel_commute (Image.make 2 2)
           (Image.mk 2 2 [Vector.zero; Vector.zero; Vector.mk 1 0 0; Vector.zero])).
  - vm_compute. discriminate.
  - reflexivity.
  - reflexivity.
Defined.

(** ** What [save] writes, read back *)

Lemma rgb_all_range (l : list Vector.t) (cs : list (Z * Z * Z)) :
  mapM Image.rgb l = Some cs ->
  Forall (fun c => 0 <= c.1.1 /\ 0 <= c.1.2 /\ 0 <= c.2) cs.
Proof.
  intros E. apply mapM_Some_1 in E.
  induction E as [|p c ps cs Hp _ IH]; constructor; [|exact IH].
  exact (rgb_range p c Hp).
Qed.

Lemma save_of_rgb (img : Image.t) (cs : list (Z * Z * Z)) :
  wf_image img ->
  Z.of_nat (length (Image.pixels img)) <= INT_MAX ->
  mapM Image.rgb (Image.pixels img) = Some cs ->
  exists text,
    Image.save img = Some text /\
    Reader.read text
    = Some (Reader.mk_ppm (Image.width img) (Image.height img) 255 cs).
Proof.
  intros Hwf Hn E. unfold Image.save. rewrite (lines_rgb img Hwf Hn), E. cbn.
  eexists. split; [reflexivity|].
  destruct Hwf as (Hw & Hh & _).
  apply read_header_lines; try lia. exact (rgb_all_range _ _ E).
Qed.

Lemma mapM_insert {A B : Type} (f : A -> option B) (l : list A) (k : list B)
    (i : nat) (a : A) (b : B) :
  mapM f l = Some k -> f a = Some b ->
  mapM f (<[i := a]> l) = Some (<[i := b]> k).
Proof.
  intros Hl Ha. apply mapM_Some. apply mapM_Some in Hl.
  revert i. induction Hl as [|x y l k Hxy Hl IH]; intros [|i]; cbn;
    try constructor; auto.
Qed.



Example save_undefined_on_negative_channel :
  Image.save (Image.mk 1 1 [Vector.mk 0.5 (-1) 0]) = None.
Proof. reflexivity. Qed.

(** X12: A freshly constructed image whose buffer has at most [INT_MAX]
    elements, saved at once, reads back as [width * height] (modulo
    [2^32]) black pixels; with more elements the counter of [save]
    overflows and nothing is defined. *)
Theorem fresh_image_reads_black (w h : Z) :
  0 <= w < 2 ^ 32 -> 0 <= h < 2 ^ 32 ->
  (wrap32 (w * h) <= INT_MAX ->
   exists text,
     Image.save (Image.make w h) = Some text /\
     Reader.read text
     = Some (Reader.mk_ppm w h 255
               (replicate (Z.to_nat (wrap32 (w * h))) (0, 0, 0)))) /\
  (INT_MAX < wrap32 (w * h) -> Image.save (Image.make w h) = None).
Proof.
  intros Hw Hh.
  assert (Hlen : Z.of_nat (length (Image.pixels (Image.make w h)))
                 = wrap32 (w * h)).
  { cbn [Image.make Image.pixels]. rewrite length_replicate.
    apply Z2Nat.id. apply Z.mod_pos_bound. lia. }
  split; intros Hn.
  - apply (save_of_rgb (Image.make w h)); [now apply make_wf | lia |].
    cbn [Image.make Image.pixels].
    induction (Z.to_nat (wrap32 (w * h))) as [|n IH]; [reflexivity|].
    cbn [replicate mapM]. rewrite IH. reflexivity.
  - apply (lines_overflow (Image.make w h)); [now apply make_wf | lia].
Qed.

Lemma fresh_image_reads_black_witness :
  (exists text,
     Image.save (Image.make 2 1) = Some text /\
     Reader.read text = Some (Reader.mk_ppm 2 1 255 [(0, 0, 0); (0, 0, 0)])) /\
  Image.save (Image.make 65536 32768) = None.
Proof.
  split.
  - apply (fresh_image_reads_black 2 1); [lia | lia | apply Z.leb_le; reflexivity].
  - apply (fresh_image_reads_black 65536 32768); [lia | lia | reflexivity].
Defined.

(** X13: A pixel written with [setPixel] is what a reader finds at its
    storage index after [save], converted; the other pixels read back as
    before the write (for a buffer of at most [INT_MAX] elements). *)
Theorem setPixel_then_save (img img' : Image.t) (x y : Z) (v : Vector.t)
    (cs : list (Z * Z * Z)) (c : Z * Z * Z) :
  wf_image img ->
  Z.of_nat (length (Image.pixels img)) <= INT_MAX ->
  mapM Image.rgb (Image.pixels img) = Some cs ->
  Image.rgb v = Some c ->
  Image.setPixel img x y v = Some img' ->
  exists text,
    Image.save img' = Some text /\
    Reader.read text
    = Some (Reader.mk_ppm (Image.width img) (Image.height img) 255
              (<[Z.to_nat (Image.index img x y) := c]> cs)).
Proof.
  intros Hwf Hn Hcs Hc Hs.
  pose proof (setPixel_wf img img' x y v Hwf Hs) as Hwf'.
  apply setPixel_Some in Hs as (_ & ->).
  apply (save_of_rgb _ _ Hwf'); cbn [Image.pixels].
  - now rewrite length_insert.
  - now apply mapM_insert.
Qed.

Lemma setPixel_then_save_witness :
  exists text,
    Image.save (Image.mk 2 2 [Vector.zero; Vector.zero; Vector.zero; Vector.mk 1 0 0])
    = Some text /\
    Reader.read text
    = Some (Reader.mk_ppm 2 2 255 [(0, 0, 0); (0, 0, 0); (0, 0, 0); (255, 0, 0)]).
Proof.
  apply (setPixel_then_save (Image.make 2 2) _ 1 1 (Vector.mk 1 0 0)
           [(0, 0, 0); (0, 0, 0); (0, 0, 0); (0, 0, 0)] (255, 0, 0)).
  - apply make_wf; lia.
  - apply Z.leb_le. reflexivity.
  - reflexivity.
  - reflexivity.
  - reflexivity.
Defined.

(** ** The loops of [main] and the buffer *)

(** X15: [main] up to [img.save]: with no pixel to draw the loops make no call
    and leave the constructed image; with at least one pixel (and a size
    that fits [unsigned int]) their first call, for pixel (0, 0), already
    falls outside the buffer. *)
Theorem render_outcome (c : setup) :
  (w c <= 0 \/ h c <= 0 ->
   calls c = [] /\
   render c = Some (Image.make (wrap32 (w c)) (wrap32 (h c)))) /\
  (0 < w c -> 0 < h c -> w c * h c < 2 ^ 32 ->
   exists rest, calls c = (0, 0, setup_color c 0 0) :: rest /\ render c = None).
Proof.
  split.
  - intros Hz.
    assert (E : calls c = []).
    { unfold calls. destruct Hz as [Hw | Hh].
      - rewrite (seqZ_nil 0 (w c)) by lia.
        induction (seqZ 0 (h c)) as [|y l IH]; [reflexivity|].
        rewrite bind_cons, IH. reflexivity.
      - now rewrite (seqZ_nil 0 (h c)) by lia. }
    split; [exact E|]. unfold render. now rewrite E.
  - intros Hw Hh Hwh.
    destruct (calls_head c Hw Hh) as (rest & E).
    exists rest. split; [exact E|]. now apply render_leaves_buffer.
Qed.
